(** * AetherMart pipeline orchestrator: a shallow embedding and its properties

    The development follows [src/Phase6_Orchestration/orchestrator.py] (the
    DAG orchestrator, its retry decorator and its three ETL phases) and the
    staging/production loaders of [src/Phase4_AI_Search/M4_p2.py].

    Conventions of the embedding:
    - a Python [dict] is an insertion-ordered association list ([odict]):
      assignment to an existing key keeps the key's position;
    - the [visited] set of the depth-first traversal is a [gset string];
    - a callable is a function on the external world that either returns a
      value or raises ([outcome]);
    - [logging] calls and the JSON export are events appended to a stream;
    - timestamps are integers (microseconds), delays are rationals. *)

From Stdlib Require Import ZArith QArith.
From stdpp Require Import gmap strings list relations.

Close Scope Q_scope.
Set Warnings "-clear-no-such-hyp".
Open Scope string_scope.
Open Scope list_scope.

(** ** Insertion-ordered dictionaries (Python [dict] with [str] keys) *)

Section odict.
Context {V : Type}.

Definition odict : Type := list (string * V).

(** [d.get(k)] *)
Fixpoint od_get (k : string) (d : odict) : option V :=
  match d with
  | [] => None
  | (k', v) :: d' => if decide (k = k') then Some v else od_get k d'
  end.

(** [d[k] = v]: an existing key is updated in place, a new key goes last. *)
Fixpoint od_set (k : string) (v : V) (d : odict) : odict :=
  match d with
  | [] => [(k, v)]
  | (k', v') :: d' =>
      if decide (k = k') then (k, v) :: d' else (k', v') :: od_set k v d'
  end.

(** iteration order of [for k in d] *)
Definition od_keys (d : odict) : list string := d.*1.

(** [d.values()] *)
Definition od_values (d : odict) : list V := d.*2.
End odict.

Arguments odict : clear implicits.

(** ** Python values and exceptions *)

(** What a unit of work hands back: [VInt z] when [isinstance(output, int)],
    [VOther] for any other object ([None] included). *)
Inductive pyvalue : Type :=
  | VInt (z : Z)
  | VOther.

(** An exception caught by [except Exception]: its class name and [str(e)]. *)
Record exn : Type := Exn { exn_class : string; exn_msg : string }.

Inductive outcome (A : Type) : Type :=
  | Returned (a : A)
  | Raised (e : exn).
Arguments Returned {A} a.
Arguments Raised {A} e.

(** ** Enums and data classes *)

Inductive Status : Type := PENDING | RUNNING | SUCCESS | FAILED | SKIPPED.

Global Instance Status_eq_dec : EqDecision Status.
Proof. solve_decision. Defined.

(** [Status.X.name], as written by the export *)
Definition Status_name (s : Status) : string :=
  match s with
  | PENDING => "PENDING" | RUNNING => "RUNNING" | SUCCESS => "SUCCESS"
  | FAILED => "FAILED" | SKIPPED => "SKIPPED"
  end.

(** The data class [TaskResult]; its fields [name] and [end] are [tr_name]
    and [end_] here. *)
Record TaskResult : Type := mkTaskResult {
  tr_name : string;
  status : Status;
  start : Z;
  end_ : option Z;
  records : Z;
  error : option string;
  retries : Z
}.

(** [TaskResult.duration]: [(end - start)] when [end] is set, else [0]. *)
Definition duration (r : TaskResult) : Z :=
  match end_ r with
  | Some e => (e - start r)%Z
  | None => 0%Z
  end.

(** ** Configuration *)

(** The entries of the module-level [CONFIG] dictionary that the
    orchestration code reads. *)
Record Config : Type := mkConfig {
  MAX_RETRIES : Z;
  RETRY_DELAY : Q;
  RETRY_BACKOFF : Q;
  LOG_DIR : string;
  ALERT_ON_FAILURE : bool
}.

Definition CONFIG : Config := mkConfig 3%Z 2%Q 2%Q "./orch_logs" true.

Section Orchestration.
(** The world outside the orchestrator: database, files, wall clock. *)
Context {E : Type}.

Record Task : Type := mkTask {
  name : string;
  func : E → outcome pyvalue * E;
  deps : list string;
  critical : bool
}.

(** [Task(name, func, deps, critical)] with [__post_init__]:
    [self.deps = self.deps or []]. *)
Definition new_Task (n : string) (f : E → outcome pyvalue * E)
    (d : option (list string)) (c : bool) : Task :=
  mkTask n f (default [] d) c.

(** *** Dependency resolver *)

Record sort_state : Type := mkSort {
  visited : gset string;
  order : list string
}.

(** [for x in xs: body(x)] over a state that may run out of fuel *)
Fixpoint for_each {S : Type} (body : string → S → option S)
    (xs : list string) (s : S) : option S :=
  match xs with
  | [] => Some s
  | x :: xs' =>
      match body x s with
      | Some s' => for_each body xs' s'
      | None => None
      end
  end.

(** The nested function [visit] of [_topological_sort]. [fuel] bounds the
    recursion depth; [None] means the bound was hit. *)
Fixpoint visit (tasks : odict Task) (fuel : nat) (n : string)
    (st : sort_state) : option sort_state :=
  match fuel with
  | O => None
  | S fuel' =>
      if decide (n ∈ visited st) then Some st
      else
        let st1 := mkSort ({[n]} ∪ visited st) (order st) in
        match od_get n tasks with
        | None => Some st1
        | Some task =>
            match for_each (visit tasks fuel') (deps task) st1 with
            | Some st2 => Some (mkSort (visited st2) (order st2 ++ [n]))
            | None => None
            end
        end
  end.

(** Every name the traversal can meet: the keys and all listed dependencies. *)
Definition mentioned (tasks : odict Task) : list string :=
  od_keys tasks ++ concat (deps <$> od_values tasks).

Definition sort_fuel (tasks : odict Task) : nat :=
  S (length (mentioned tasks)).

Definition _topological_sort (tasks : odict Task) : option (list string) :=
  order <$> for_each (visit tasks (sort_fuel tasks)) (od_keys tasks)
              (mkSort ∅ []).

(** *** Registry, results and the log stream *)

(** The attributes of an [Orchestrator] object; [self.name] is [o_name]. *)
Record Orchestrator : Type := mkOrchestrator {
  o_name : string;
  tasks : odict Task;
  results : odict TaskResult;
  run_id : string
}.

(** [Orchestrator.__init__]: empty registry, empty results. The run id is
    the formatted construction time, passed in already formatted. *)
Definition new_Orchestrator (nm rid : string) : Orchestrator :=
  mkOrchestrator nm [] [] rid.

(** [add]: [self.tasks[name] = Task(name, func, deps, critical)];
    [return self]. No check, no call of [func]. *)
Definition add (n : string) (f : E → outcome pyvalue * E)
    (d : option (list string)) (c : bool) (self : Orchestrator)
    : Orchestrator :=
  mkOrchestrator (o_name self)
    (od_set n (new_Task n f d c) (tasks self))
    (results self) (run_id self).

(** One entry of the ["results"] object of the JSON export. *)
Record export_entry : Type := mkEntry {
  ex_status : string;
  ex_duration : Z;
  ex_records : Z;
  ex_error : option string
}.

Record export_doc : Type := mkDoc {
  ex_pipeline : string;
  ex_run_id : string;
  ex_results : odict export_entry
}.

(** What a run emits, in order. [Invoke n] marks the call [task.func()];
    the other constructors are the [logging] calls that carry data and the
    [json.dump] into the results file. Separator lines are left out. *)
Inductive event : Type :=
  | LogPipeline (pipeline rid : string)
  | LogOrder (ord : list string)
  | LogSkipped (n : string)
  | LogRunning (n : string)
  | Invoke (n : string)
  | LogSuccess (n : string) (dur recs : Z)
  | LogFailed (n : string) (msg : string)
  | LogAlert (n : string)
  | LogCriticalStop
  | LogSummary (dur : Z) (success failed : nat)
  | LogSummaryLine (st : Status) (n : string) (dur recs : Z)
  | WriteFile (path : string) (doc : export_doc)
  | LogExported (path : string).

Global Instance export_entry_eq_dec : EqDecision export_entry.
Proof. solve_decision. Defined.
Global Instance export_doc_eq_dec : EqDecision export_doc.
Proof. solve_decision. Defined.
Global Instance event_eq_dec : EqDecision event.
Proof. solve_decision. Defined.

(** The engine's state: the orchestrator object and the outside world. *)
Record machine : Type := mkMachine {
  self : Orchestrator;
  world : E
}.

Definition set_result (n : string) (r : TaskResult) (o : Orchestrator)
    : Orchestrator :=
  mkOrchestrator (o_name o) (tasks o) (od_set n r (results o)) (run_id o).

(** *** Execution engine *)

Section Engine.
(** [datetime.now()]: reading the clock is an action on the world. *)
Context (now : E → Z * E).
(** The [CONFIG] in force during the run. *)
Context (cfg : Config).

(** The loop of [_can_run] over a way to look results up: every
    dependency has a recorded result whose status is [SUCCESS]. *)
Fixpoint deps_succeeded (get : string → option TaskResult)
    (ds : list string) : bool :=
  match ds with
  | [] => true
  | dep :: ds' =>
      match get dep with
      | None => false
      | Some result =>
          if decide (status result = SUCCESS)
          then deps_succeeded get ds' else false
      end
  end.

Definition _can_run (o : Orchestrator) (task : Task) : bool :=
  deps_succeeded (λ dep, od_get dep (results o)) (deps task).

(** [_execute_task]: the result object, the world after the call and
    the events of the call. *)
Definition _execute_task (task : Task) (w : E)
    : TaskResult * E * list event :=
  let '(t0, w1) := now w in
  match func task w1 with
  | (Returned output, w2) =>
      let '(t1, w3) := now w2 in
      let recs := match output with VInt z => z | VOther => 0%Z end in
      let result := mkTaskResult (name task) SUCCESS t0 (Some t1) recs None 0%Z in
      (result, w3,
       [LogRunning (name task); Invoke (name task);
        LogSuccess (name task) (duration result) recs])
  | (Raised e, w2) =>
      let '(t1, w3) := now w2 in
      let result :=
        mkTaskResult (name task) FAILED t0 (Some t1) 0%Z (Some (exn_msg e)) 0%Z in
      (result, w3,
       [LogRunning (name task); Invoke (name task);
        LogFailed (name task) (exn_msg e)]
       ++ (if ALERT_ON_FAILURE cfg then [LogAlert (name task)] else []))
  end.

(** The body of the [for name in order] loop of [run]; the boolean says
    whether the body ended in [break]. [self.tasks[name]] raises
    [KeyError] on a missing key. *)
Definition loop_body (n : string) (m : machine)
    : outcome bool * machine * list event :=
  match od_get n (tasks (self m)) with
  | None => (Raised (Exn "KeyError" n), m, [])
  | Some task =>
      if _can_run (self m) task then
        let '(result, w', evs) := _execute_task task (world m) in
        let m' := mkMachine (set_result n result (self m)) w' in
        if bool_decide (status result = FAILED) && critical task
        then (Returned true, m', evs ++ [LogCriticalStop])
        else (Returned false, m', evs)
      else
        let '(t0, w1) := now (world m) in
        let '(t1, w2) := now w1 in
        (Returned false,
         mkMachine
           (set_result n (mkTaskResult n SKIPPED t0 (Some t1) 0%Z None 0%Z)
              (self m))
           w2,
         [LogSkipped n])
  end.

Fixpoint run_loop (ord : list string) (m : machine)
    : outcome unit * machine * list event :=
  match ord with
  | [] => (Returned tt, m, [])
  | n :: rest =>
      match loop_body n m with
      | (Raised e, m', evs) => (Raised e, m', evs)
      | (Returned true, m', evs) => (Returned tt, m', evs)
      | (Returned false, m', evs) =>
          let '(r, m'', evs') := run_loop rest m' in
          (r, m'', evs ++ evs')
      end
  end.

Definition count_status (s : Status) (res : odict TaskResult) : nat :=
  length (filter (λ r, status r = s) (od_values res)).

(** [_print_summary]: the two counters of the source ([success] and
    [failed]) and one line per recorded result. *)
Definition _print_summary (o : Orchestrator) (dur : Z) : list event :=
  LogSummary dur (count_status SUCCESS (results o))
                 (count_status FAILED (results o))
  :: ((λ '(n, r), LogSummaryLine (status r) n (duration r) (records r))
        <$> results o).

(** [_export_results] *)
Definition export_of (o : Orchestrator) : export_doc :=
  mkDoc (o_name o) (run_id o)
    ((λ '(n, r),
        (n, mkEntry (Status_name (status r)) (duration r) (records r)
              (error r))) <$> results o).

Definition results_path (o : Orchestrator) : string :=
  LOG_DIR cfg +:+ "/results_" +:+ run_id o +:+ ".json".

Definition _export_results (o : Orchestrator) : list event :=
  [WriteFile (results_path o) (export_of o); LogExported (results_path o)].

(** [run]: the outcome, the machine afterwards and the events emitted.
    [None] only when the resolver ran out of fuel. *)
Definition run (m : machine)
    : option (outcome unit * machine * list event) :=
  match _topological_sort (tasks (self m)) with
  | None => None
  | Some ord =>
      let head := [LogPipeline (o_name (self m)) (run_id (self m));
                   LogOrder ord] in
      let '(t_start, w1) := now (world m) in
      match run_loop ord (mkMachine (self m) w1) with
      | (Raised e, m2, evs) => Some (Raised e, m2, head ++ evs)
      | (Returned _, m2, evs) =>
          let '(t_end, w3) := now (world m2) in
          Some (Returned tt, mkMachine (self m2) w3,
                head ++ evs
                ++ _print_summary (self m2) (t_end - t_start)%Z
                ++ _export_results (self m2))
      end
  end.
End Engine.

End Orchestration.

Arguments Task : clear implicits.
Arguments Orchestrator : clear implicits.
Arguments machine : clear implicits.
Arguments event : clear implicits.

(** ** The dependency graph of a registry *)

Section Graph.
Context {E : Type} (tasks : odict (Task E)).

Definition registered (n : string) : Prop := n ∈ od_keys tasks.

(** [edge a b]: the task registered as [a] lists [b] as a dependency. *)
Definition edge (a b : string) : Prop :=
  ∃ t, od_get a tasks = Some t ∧ b ∈ deps t.

Definition deps_registered : Prop := ∀ a b, edge a b → registered b.

Definition acyclic : Prop := ∀ a, ¬ tc edge a a.

(** In [ord], every dependency of a task sits at a strictly smaller index
    than the task. *)
Definition respects (ord : list string) : Prop :=
  ∀ i n t d, ord !! i = Some n → od_get n tasks = Some t → d ∈ deps t →
    ∃ j, j < i ∧ ord !! j = Some d.

(** Invariants of the traversal: the order holds distinct, visited,
    registered names; a registered name is [pending] while its [visit] is
    on the call stack (visited, not yet appended). *)
Definition sort_inv (st : sort_state) : Prop :=
  NoDup (order st) ∧ ∀ x, x ∈ order st → x ∈ visited st ∧ registered x.

Definition pending (st : sort_state) (x : string) : Prop :=
  registered x ∧ x ∈ visited st ∧ x ∉ order st.

Definition extends (st st' : sort_state) : Prop :=
  visited st ⊆ visited st'
  ∧ (∃ new, order st' = order st ++ new)
  ∧ (sort_inv st → sort_inv st')
  ∧ ∀ x, pending st' x ↔ pending st x.
End Graph.

(** ** Checkable sufficient conditions for the graph hypotheses *)

Section Checks.
Context {E : Type}.

Definition deps_registeredb (tasks : odict (Task E)) : bool :=
  forallb (λ t, forallb (λ d, bool_decide (d ∈ od_keys tasks)) (deps t))
    (od_values tasks).

(** Every listed dependency has a strictly smaller rank than its task. *)
Definition ranked (rank : string → nat) (tasks : odict (Task E)) : bool :=
  forallb (λ '(k, t), forallb (λ d, (rank d <? rank k)%nat) (deps t)) tasks.

Fixpoint index_of (n : string) (l : list string) : nat :=
  match l with
  | [] => 0
  | x :: l' => if decide (n = x) then 0 else S (index_of n l')
  end.
End Checks.

(** ** Registries used as examples *)

(** The pipeline built by [main()], in the order of its [orch.add] calls;
    [f n] stands for the unit of work registered under the name [n]. *)
Definition main_pipeline {E : Type} (f : string → E → outcome pyvalue * E)
    (rid : string) : Orchestrator E :=
  foldl (λ o '(n, d, c), add n (f n) d c o)
    (new_Orchestrator "AetherMart_Complete_ELT" rid)
    [ ("create_schema", None, true);
      ("stage_categories", Some ["create_schema"], true);
      ("stage_suppliers", Some ["create_schema"], true);
      ("stage_customers", Some ["create_schema"], true);
      ("stage_products", Some ["create_schema"], true);
      ("stage_orders", Some ["create_schema"], true);
      ("stage_order_items", Some ["create_schema"], true);
      ("stage_reviews", Some ["create_schema"], true);
      ("transform_customers", Some ["stage_customers"], true);
      ("transform_orders", Some ["stage_orders"], true);
      ("transform_reviews", Some ["stage_reviews"], true);
      ("load_categories", Some ["stage_categories"], true);
      ("load_suppliers", Some ["stage_suppliers"], true);
      ("load_customers", Some ["transform_customers"], true);
      ("load_products",
         Some ["load_categories"; "load_suppliers"; "stage_products"], true);
      ("load_orders", Some ["load_customers"; "transform_orders"], true);
      ("load_order_items",
         Some ["load_orders"; "load_products"; "stage_order_items"], true);
      ("load_reviews",
         Some ["load_customers"; "load_products"; "transform_reviews"], true);
      ("validate_data",
         Some ["load_orders"; "load_products"; "load_reviews"], false) ].

(** A unit of work that returns [k] records and leaves the world alone. *)
Definition returns {E : Type} (k : Z) : E → outcome pyvalue * E :=
  λ w, (Returned (VInt k), w).

(** A unit of work that always raises. *)
Definition raises {E : Type} (e : exn) : E → outcome pyvalue * E :=
  λ w, (Raised e, w).

(** [A] depends on [B] and [B] depends on [A]. *)
Definition cyclic_pipeline : Orchestrator unit :=
  add "B" (returns 0) (Some ["A"]) true
    (add "A" (returns 0) (Some ["B"]) true (new_Orchestrator "cycle" "r0")).

(** ** Reading a run: events and recorded results *)

(** The task an event of the loop is about. *)
Definition subject (e : event) : option string :=
  match e with
  | LogSkipped n | LogRunning n | Invoke n | LogSuccess n _ _
  | LogFailed n _ | LogAlert n => Some n
  | _ => None
  end.

Definition is_summary (e : event) : bool :=
  match e with LogSummary _ _ _ => true | _ => false end.

Definition is_export (e : event) : bool :=
  match e with WriteFile _ _ => true | _ => false end.

(** How many times [task.func()] was called for the task named [n]. *)
Definition invocations (n : string) (evs : list event) : nat :=
  length (filter (λ e, e = Invoke n) evs).

(** The engine considered [n]: it logged either RUNNING or SKIPPED for it. *)
Definition considered (evs : list event) (n : string) : Prop :=
  LogRunning n ∈ evs ∨ LogSkipped n ∈ evs.

Definition status_of (res : odict TaskResult) (n : string) : option Status :=
  status <$> od_get n res.

(** The result recorded for [d] at the moment a task is considered, given
    the results before the run ([res0]), the results after it ([res']) and
    the tasks considered [earlier]: names are recorded once per run, so an
    earlier task already has its final result and any other name still has
    the result it had before the run. *)
Definition results_at (res0 res' : odict TaskResult) (earlier : list string)
    (d : string) : option TaskResult :=
  if decide (d ∈ earlier) then od_get d res' else od_get d res0.

(** What the loop body does with a task, by whether it could run. *)
Definition verdict (evs : list event) (n : string) (ok : bool)
    (r : TaskResult) : Prop :=
  if ok
  then (status r = SUCCESS ∨ status r = FAILED)
       ∧ invocations n evs = 1 ∧ LogRunning n ∈ evs
  else status r = SKIPPED ∧ invocations n evs = 0 ∧ LogSkipped n ∈ evs.

(** Keys and task names agree, as in every registry built by [add]. *)
Definition well_keyed {E : Type} (tasks : odict (Task E)) : Prop :=
  ∀ k t, od_get k tasks = Some t → name t = k.

Definition well_keyedb {E : Type} (tasks : odict (Task E)) : bool :=
  forallb (λ '(k, t), bool_decide (name t = k)) tasks.

Definition count_events (p : event → bool) (evs : list event) : nat :=
  length (List.filter p evs).

(** ** Retry policy *)

(** What the retry wrapper does to the world besides calling the wrapped
    function: [Attempt k] marks the call of the function in iteration [k],
    [Warn] is the [logging.warning] line ("Retry k/max in delay s: msg") and
    [Sleep] is [time.sleep(delay)]. *)
Inductive effect : Type :=
  | Attempt (attempt : nat)
  | Warn (k max : Z) (delay : Q) (msg : string)
  | Sleep (delay : Q).

Section Retry.
(** What the wrapped function works on (database, files). *)
Context {X : Type}.

Record World : Type := mkWorld {
  ext : X;
  effects : list effect
}.

Context (cfg : Config).

(** [CONFIG['RETRY_DELAY'] * (CONFIG['RETRY_BACKOFF'] ** attempt)] *)
Definition retry_delay (attempt : nat) : Q :=
  (RETRY_DELAY cfg * RETRY_BACKOFF cfg ^ Z.of_nat attempt)%Q.

(** The loop [for attempt in range(max_retries + 1)] of [wrapper], entered
    at iteration [attempt] with [todo] iterations left. A loop that runs
    out of iterations falls off the end of [wrapper], which returns
    [None]. *)
Fixpoint attempts (func : X → outcome pyvalue * X) (max_retries : Z)
    (todo attempt : nat) (w : World) : outcome pyvalue * World :=
  match todo with
  | O => (Returned VOther, w)
  | S todo' =>
      let called := effects w ++ [Attempt attempt] in
      match func (ext w) with
      | (Returned v, x) => (Returned v, mkWorld x called)
      | (Raised e, x) =>
          if (Z.of_nat attempt >=? max_retries)%Z
          then (Raised e, mkWorld x called)
          else
            let delay := retry_delay attempt in
            attempts func max_retries todo' (S attempt)
              (mkWorld x
                 (called ++ [Warn (Z.of_nat attempt + 1) max_retries delay
                               (exn_msg e);
                             Sleep delay]))
      end
  end.

(** [retry_with_backoff(max_retries)(func)] *)
Definition retry_with_backoff (max_retries : Z)
    (func : X → outcome pyvalue * X) : World → outcome pyvalue * World :=
  attempts func max_retries (Z.to_nat (max_retries + 1)) 0.
End Retry.

Arguments World : clear implicits.

(** The delays slept, in order. *)
Definition sleeps (effs : list effect) : list Q :=
  omap (λ e, match e with Sleep d => Some d | _ => None end) effs.

(** The number of calls of the wrapped function. *)
Definition attempts_made (effs : list effect) : nat :=
  length (omap (λ e, match e with Attempt k => Some k | _ => None end) effs).

(** ** The end-to-end scenario *)

(** [A] (no dependencies) returns 2 records; [B] (no dependencies) always
    raises and is wrapped by the retry policy with [max_retries = 2]; [C]
    depends on [A] and [B] and is critical. [b_critical] is the criticality
    of [B]. *)
Definition scenario (b_critical : bool) : Orchestrator (World unit) :=
  add "C" (returns 0) (Some ["A"; "B"]) true
    (add "B"
       (retry_with_backoff CONFIG 2 (raises (Exn "RuntimeError" "B is down")))
       None b_critical
       (add "A" (returns 2) None true (new_Orchestrator "scenario" "r0"))).

(** A clock that stands still. *)
Definition frozen {E : Type} : E → Z * E := λ w, (0%Z, w).


(** The name [A] is registered twice. *)
Definition duplicate_pipeline : Orchestrator unit :=
  add "A" (returns 2) (Some ["B"]) false
    (add "B" (returns 0) None true
       (add "A" (returns 1) None true (new_Orchestrator "duplicate" "r0"))).

(** [U] stands after [T] in [ord]. *)
Definition later_in (ord : list string) (T U : string) : Prop :=
  ∃ i j, ord !! i = Some T ∧ ord !! j = Some U ∧ i < j.

(** ** Staged validation: stage, transform, promote *)

(** The database is modelled by what the SQL statements of the loaders read
    and write: for each staging table its rows, for each production table
    its rows, the audit log of the M4 pipeline, and the CSV files of the
    data directory (a file is its list of data rows; the header line is
    taken to be present and to name data columns only, as
    [data_generation.py] writes it). *)
Section Staged.
(** One parsed CSV row, and the data columns of a table row. *)
Context {Raw Fields : Type}.

(** A row of a staging table: the data columns and the three bookkeeping
    columns [load_timestamp], [is_valid] ([BOOLEAN DEFAULT FALSE]) and
    [error_message]. A bookkeeping column that the table does not have
    reads as [None], like SQL [NULL]. *)
Record StagingRecord : Type := mkStaged {
  fields : Fields;
  load_timestamp : option Z;
  is_valid : option bool;
  error_message : option string
}.

(** A row of [elt_audit_log] (times left out). *)
Record Audit : Type := mkAudit {
  au_run_id : string;
  au_stage : string;
  au_table : string;
  au_processed : Z;
  au_valid : Z;
  au_invalid : Z;
  au_status : string
}.

Record Store : Type := mkStore {
  files : gmap string (list Raw);
  staging : gmap string (list StagingRecord);
  production : gmap string (list Fields);
  audit : list Audit
}.

Definition set_staging (t : string) (rows : list StagingRecord) (s : Store)
    : Store :=
  mkStore (files s) (<[t := rows]> (staging s)) (production s) (audit s).

Definition set_production (t : string) (rows : list Fields) (s : Store)
    : Store :=
  mkStore (files s) (staging s) (<[t := rows]> (production s)) (audit s).

(** What the database does with the values it is handed. *)
Context
  (** the row an [INSERT] of a CSV row stores in the staging table of a
      table, [None] when the statement raises *)
  (store_row : string → Raw → option Fields)
  (** [Some msg] for a line with more fields than the header:
      [csv.DictReader] keeps the surplus under the key [None], and
      [', '.join] over such keys raises [TypeError] with message [msg] *)
  (surplus : Raw → option string)
  (** the row [LOAD DATA LOCAL INFILE] stores for a line *)
  (infile_row : string → Raw → Fields)
  (** whether the server accepts [LOAD DATA LOCAL INFILE] *)
  (local_infile : bool)
  (** the conversions of [INSERT ... SELECT] into a production table
      ([STR_TO_DATE], [CAST], column casts) *)
  (convert : string → Fields → Fields)
  (** whether the constraints of a production table (keys, [NOT NULL])
      admit the new rows next to the present ones *)
  (admits : string → list Fields → list Fields → bool)
  (** the two [UPDATE]s of [transform_and_validate] *)
  (clean_email standardize_date : Fields → Fields).

Definition stg (table_name : string) : string := "stg_" +:+ table_name.

(** Tables whose staging table has the [is_valid] and [error_message]
    columns (both schemas). *)
Definition validated (table_name : string) : bool :=
  bool_decide (table_name ∈ ["customers"; "reviews"; "orders"]).

(** Tables whose staging table has [load_timestamp] in the orchestrator's
    schema; in the M4 schema every staging table has it. *)
Definition timestamped (table_name : string) : bool :=
  bool_decide (table_name
               ∈ ["customers"; "products"; "orders"; "order_items"; "reviews"]).

(** A freshly inserted staging row: column defaults apply. *)
Definition staged_row (with_ts with_valid : bool) (ts : Z) (f : Fields)
    : StagingRecord :=
  mkStaged f (if with_ts then Some ts else None)
    (if with_valid then Some false else None) None.

Definition mariadb_error (msg : string) : exn := Exn "mariadb.Error" msg.

(** *** The orchestrator's three phases (orchestrator.py) *)

(** The [for row in rows] loop of [load_to_staging]: a row whose [INSERT]
    raises is skipped. [clock i] is [CURRENT_TIMESTAMP] when row [i] is
    inserted. *)
Fixpoint insert_rows (table_name : string) (clock : nat → Z) (i : nat)
    (rows : list Raw) : list StagingRecord :=
  match rows with
  | [] => []
  | row :: rest =>
      match store_row table_name row with
      | Some f =>
          staged_row (timestamped table_name) (validated table_name)
            (clock i) f
          :: insert_rows table_name clock (S i) rest
      | None => insert_rows table_name clock (S i) rest
      end
  end.

(** The body of [load_to_staging]. [TRUNCATE] comes before the text of the
    [INSERT] is put together from the keys of the first row, so a failure
    of that [join] leaves the staging table empty. *)
Definition load_to_staging_body (table_name csv_file : string)
    (clock : nat → Z) (s : Store) : outcome pyvalue * Store :=
  match files s !! csv_file with
  | None =>
      (Raised (Exn "FileNotFoundError" ("CSV not found: " +:+ csv_file)), s)
  | Some [] => (Returned (VInt 0), s)
  | Some ((first :: _) as rows) =>
      match staging s !! stg table_name with
      | None => (Raised (mariadb_error (stg table_name)), s)
      | Some _ =>
          match surplus first with
          | Some msg =>
              (Raised (Exn "TypeError" msg), set_staging (stg table_name) [] s)
          | None =>
              let inserted := insert_rows table_name clock 0 rows in
              (Returned (VInt (Z.of_nat (length inserted))),
               set_staging (stg table_name) inserted s)
          end
      end
  end.

Definition on_fields (g : Fields → Fields) (r : StagingRecord)
    : StagingRecord :=
  mkStaged (g (fields r)) (load_timestamp r) (is_valid r) (error_message r).

(** The body of [transform_and_validate]: it rewrites data columns and
    returns [COUNT( * )]; it never writes [is_valid]. *)
Definition transform_and_validate_body (table_name : string) (s : Store)
    : outcome pyvalue * Store :=
  match staging s !! stg table_name with
  | None => (Raised (mariadb_error (stg table_name)), s)
  | Some rows =>
      let rows' :=
        if decide (table_name = "customers") then on_fields clean_email <$> rows
        else if decide (table_name = "orders")
             then on_fields standardize_date <$> rows
             else rows in
      (Returned (VInt (Z.of_nat (length rows'))),
       set_staging (stg table_name) rows' s)
  end.

(** The body of [load_to_production]:
    [INSERT INTO table (cols) SELECT cols FROM stg_table], with no
    [WHERE]; it returns [COUNT( * )] of the production table. *)
Definition load_to_production_body (table_name : string) (s : Store)
    : outcome pyvalue * Store :=
  match staging s !! stg table_name with
  | None => (Raised (mariadb_error (stg table_name)), s)
  | Some rows =>
      match production s !! table_name with
      | None => (Raised (mariadb_error table_name), s)
      | Some prod =>
          let new := (λ r, convert table_name (fields r)) <$> rows in
          if admits table_name prod new
          then (Returned (VInt (Z.of_nat (length (prod ++ new)))),
                set_production table_name (prod ++ new) s)
          else (Raised (mariadb_error table_name), s)
      end
  end.

(** The decorated functions: [@retry_with_backoff()] reads the module's
    [CONFIG]. *)
Definition load_to_staging (table_name csv_file : string) (clock : nat → Z)
    : World Store → outcome pyvalue * World Store :=
  retry_with_backoff CONFIG (MAX_RETRIES CONFIG)
    (load_to_staging_body table_name csv_file clock).

Definition transform_and_validate (table_name : string)
    : World Store → outcome pyvalue * World Store :=
  retry_with_backoff CONFIG (MAX_RETRIES CONFIG)
    (transform_and_validate_body table_name).

Definition load_to_production (table_name : string)
    : World Store → outcome pyvalue * World Store :=
  retry_with_backoff CONFIG (MAX_RETRIES CONFIG)
    (load_to_production_body table_name).

(** *** The M4 pipeline's loaders (M4_p2.py) *)

(** [log_audit] *)
Definition log_audit (run_id stage table_name : string)
    (processed valid invalid : Z) (st : string) (s : Store) : Store :=
  mkStore (files s) (staging s) (production s)
    (audit s ++ [mkAudit run_id stage table_name processed valid invalid st]).

(** [AetherMartELTPipeline.load_to_staging]: [TRUNCATE], then one
    [LOAD DATA LOCAL INFILE] at time [ts]. *)
Definition m4_load_to_staging (table_name csv_file run_id : string) (ts : Z)
    (s : Store) : bool * Store :=
  match files s !! csv_file with
  | None => (false, s)
  | Some rows =>
      match staging s !! stg table_name with
      | None =>
          (false, log_audit run_id "LOAD_STAGING" table_name 0 0 0 "FAILED" s)
      | Some _ =>
          if local_infile then
            let loaded :=
              (λ row, staged_row true (validated table_name) ts
                        (infile_row table_name row)) <$> rows in
            (true,
             log_audit run_id "LOAD_STAGING" table_name
               (Z.of_nat (length rows)) (Z.of_nat (length loaded)) 0 "SUCCESS"
               (set_staging (stg table_name) loaded s))
          else
            (false,
             log_audit run_id "LOAD_STAGING" table_name 0 0 0 "FAILED"
               (set_staging (stg table_name) [] s))
      end
  end.

(** The rows selected by [WHERE is_valid = TRUE]. *)
Definition valid_rows (rows : list StagingRecord) : list StagingRecord :=
  filter (λ r, is_valid r = Some true) rows.

(** [AetherMartELTPipeline.load_to_production] *)
Definition m4_load_to_production (table_name run_id : string) (s : Store)
    : bool * Store :=
  let failed :=
    (false, log_audit run_id "LOAD_PROD" table_name 0 0 0 "FAILED" s) in
  match staging s !! stg table_name with
  | None => failed
  | Some rows =>
      let selected :=
        if validated table_name then valid_rows rows else rows in
      if decide (length selected = 0) then (true, s)
      else
        match production s !! table_name with
        | None => failed
        | Some prod =>
            let succeeded :=
              log_audit run_id "LOAD_PROD" table_name
                (Z.of_nat (length selected)) (Z.of_nat (length selected))
                0 "SUCCESS" in
            if validated table_name
               || bool_decide (table_name ∈ ["categories"; "suppliers";
                                              "products"; "order_items"])
            then
              let new := (λ r, convert table_name (fields r)) <$> selected in
              if admits table_name prod new
              then (true,
                    succeeded (set_production table_name (prod ++ new) s))
              else failed
            else (true, succeeded s)
        end
  end.

End Staged.

Arguments StagingRecord : clear implicits.
Arguments Store : clear implicits.

(** A staging run of the orchestrator on one customer row, with a database
    that stores every row as it is and whose production tables admit every
    row: the CSV file holds the customer [7]. *)
Definition one_customer : World (Store Z Z) :=
  mkWorld
    (mkStore {["customers.csv" := [7%Z]]}
       {["stg_customers" := []]} {["customers" := []]} [])
    [].

Definition stage_customers : World (Store Z Z) → outcome pyvalue * World (Store Z Z) :=
  load_to_staging (λ _ row, Some row) (λ _, None) "customers" "customers.csv" (λ _, 0%Z).

Definition transform_customers : World (Store Z Z) → outcome pyvalue * World (Store Z Z) :=
  transform_and_validate (λ f, f) (λ f, f) "customers".

Definition load_customers : World (Store Z Z) → outcome pyvalue * World (Store Z Z) :=
  load_to_production (λ _ f, f) (λ _ _ _, true) "customers".


(** ** Registries registered in dependency order *)

(** Every task lists only names registered before it, and no name is
    registered twice; [seen] holds the names registered so far. *)
Fixpoint registered_before {E : Type} (seen : list string)
    (tasks : odict (Task E)) : bool :=
  match tasks with
  | [] => true
  | (k, t) :: rest =>
      forallb (λ d, bool_decide (d ∈ seen)) (deps t)
      && bool_decide (k ∉ seen)
      && registered_before (seen ++ [k]) rest
  end.

(** ** The shape of a recorded result *)

(** What [run] stores for the task named [n]: the object built by
    [_execute_task] or the [SKIPPED] object built in the loop. *)
Definition result_shape (n : string) (r : TaskResult) : Prop :=
  tr_name r = n ∧ is_Some (end_ r) ∧ retries r = 0%Z
  ∧ match status r with
    | SUCCESS => error r = None
    | FAILED => records r = 0%Z ∧ is_Some (error r)
    | SKIPPED => records r = 0%Z ∧ error r = None
    | PENDING | RUNNING => False
    end.

(** ** The M4 pipeline's transform stage (M4_p2.py) *)

Section M4Transform.
Context {Raw Fields : Type}.

(** What the database computes on the data columns of one staging row.
    The statements are taken to execute once their table exists. *)
Context
  (** the first [UPDATE] of a table's transformation (clean empty emails,
      standardise order dates, clear unusable ratings) *)
  (normalise : string → Fields → Fields)
  (** the [WHERE] clause of its second [UPDATE] *)
  (rule : string → Fields → bool).

(** [UPDATE stg SET is_valid = TRUE, error_message = NULL WHERE rule] *)
Definition mark_valid (table_name : string) (r : StagingRecord Fields)
    : StagingRecord Fields :=
  if rule table_name (fields r)
  then mkStaged (fields r) (load_timestamp r) (Some true) None
  else r.

(** [UPDATE stg SET is_valid = FALSE, error_message = msg
     WHERE is_valid = FALSE OR is_valid IS NULL] *)
Definition mark_invalid (msg : string) (r : StagingRecord Fields)
    : StagingRecord Fields :=
  match is_valid r with
  | Some true => r
  | _ => mkStaged (fields r) (load_timestamp r) (Some false) (Some msg)
  end.

(** The three [UPDATE]s of a [_transform_*] method, each over the whole
    staging table. *)
Definition three_updates (table_name msg : string)
    (rows : list (StagingRecord Fields))
    : list (StagingRecord Fields) :=
  mark_invalid msg
    <$> (mark_valid table_name <$> (on_fields (normalise table_name) <$> rows)).

Definition _transform_customers 
    : list (StagingRecord Fields) → list (StagingRecord Fields) :=
  three_updates "customers" "Missing required fields or invalid email".

Definition _transform_orders 
    : list (StagingRecord Fields) → list (StagingRecord Fields) :=
  three_updates "orders" "Invalid date format or missing required fields".

Definition _transform_reviews 
    : list (StagingRecord Fields) → list (StagingRecord Fields) :=
  three_updates "reviews" "Missing or invalid rating (must be 1-5)".

(** [AetherMartELTPipeline.transform_staging_data] *)
Definition transform_staging_data (table_name run_id : string)
    (s : Store Raw Fields) : bool * Store Raw Fields :=
  if negb (bool_decide (table_name ∈ ["customers"; "reviews"; "orders"]))
  then (true, s)
  else
    match staging s !! stg table_name with
    | None =>
        (false, log_audit run_id "TRANSFORM" table_name 0 0 0 "FAILED" s)
    | Some rows =>
        let total_records := Z.of_nat (length rows) in
        let rows' :=
          if decide (table_name = "customers") then _transform_customers rows
          else if decide (table_name = "orders") then _transform_orders rows
          else if decide (table_name = "reviews")
               then _transform_reviews rows
               else rows in
        let valid_count := Z.of_nat (length (valid_rows rows')) in
        let invalid_count := (total_records - valid_count)%Z in
        (true,
         log_audit run_id "TRANSFORM" table_name total_records valid_count
           invalid_count "SUCCESS" (set_staging (stg table_name) rows' s))
    end.

(** The message a table's transformation stores with an invalid row. *)
Definition invalid_message (table_name : string) : string :=
  if decide (table_name = "customers")
  then "Missing required fields or invalid email"
  else if decide (table_name = "orders")
       then "Invalid date format or missing required fields"
       else "Missing or invalid rating (must be 1-5)".
End M4Transform.

(** The rewriting of the data columns that the orchestrator's
    [transform_and_validate] applies to a table: [customers] get their
    e-mail addresses cleaned, [orders] their dates standardised, the other
    tables nothing. *)
Definition cleaning {Fields : Type}
    (clean_email standardize_date : Fields → Fields) (t : string)
    : Fields → Fields :=
  if decide (t = "customers") then clean_email
  else if decide (t = "orders") then standardize_date
       else λ f, f.

(** ** What considering a task does to the world *)

Section Account.
Context {E : Type} (now : E → Z * E).

(** The task is called: the clock is read, the operation is applied, once,
    to the world the clock left, and the clock is read again. The result
    records the outcome of that call: [SUCCESS] with the records returned
    (0 unless the value is an [int]) or [FAILED] with the message of the
    exception. *)
Definition called (task : Task E) (w : E) : TaskResult * E :=
  let '(t0, w0) := now w in
  let '(out, w1) := func task w0 in
  let '(t1, w2) := now w1 in
  (match out with
   | Returned v =>
       mkTaskResult (name task) SUCCESS t0 (Some t1)
         (match v with VInt z => z | VOther => 0%Z end) None 0%Z
   | Raised e =>
       mkTaskResult (name task) FAILED t0 (Some t1) 0%Z (Some (exn_msg e)) 0%Z
   end, w2).

(** The task is passed over: the world sees the two clock reads of the
    [SKIPPED] record and nothing else; no operation is applied. *)
Definition passed_over (n : string) (w : E) : TaskResult * E :=
  let '(t0, w0) := now w in
  let '(t1, w1) := now w0 in
  (mkTaskResult n SKIPPED t0 (Some t1) 0%Z None 0%Z, w1).
End Account.



(** * Properties *)

(** ** Ordered dictionaries *)

Section odict_facts.
Context {V : Type}.
Implicit Types (d : odict V) (k : string) (v : V).

Lemma od_get_Some_keys d k v : od_get k d = Some v → k ∈ od_keys d.
Proof.
  induction d as [|[k' v'] d IH]; simpl; [done|].
  case_decide; set_solver.
Qed.

Lemma od_get_None d k : od_get k d = None ↔ k ∉ od_keys d.
Proof.
  induction d as [|[k' v'] d IH]; simpl; [set_solver|].
  case_decide; [set_solver|]. rewrite IH. set_solver.
Qed.

Lemma od_get_is_Some d k : is_Some (od_get k d) ↔ k ∈ od_keys d.
Proof.
  rewrite <- not_eq_None_Some, od_get_None.
  split; [apply dec_stable | auto].
Qed.

Lemma od_get_Some_values d k v : od_get k d = Some v → v ∈ od_values d.
Proof.
  induction d as [|[k' v'] d IH]; simpl; [done|].
  case_decide; [intros [= ->] | ]; set_solver.
Qed.

Lemma od_get_Some_elem d k v : od_get k d = Some v → (k, v) ∈ d.
Proof.
  induction d as [|[k' v'] d IH]; simpl; [done|].
  case_decide; [intros [= ->]; subst|]; set_solver.
Qed.

Lemma od_get_set d k k' v :
  od_get k' (od_set k v d) = if decide (k' = k) then Some v else od_get k' d.
Proof.
  induction d as [|[k0 v0] d IH]; simpl.
  - repeat case_decide; congruence.
  - destruct (decide (k = k0)) as [->|]; simpl;
      repeat case_decide; congruence.
Qed.

Lemma od_keys_set_in d k v : k ∈ od_keys d → od_keys (od_set k v d) = od_keys d.
Proof.
  unfold od_keys. induction d as [|[k0 v0] d IH]; simpl; [set_solver|].
  intros Hin. case_decide; simplify_eq/=; [done|].
  f_equal. apply IH. set_solver.
Qed.

Lemma od_keys_set_notin d k v :
  k ∉ od_keys d → od_keys (od_set k v d) = od_keys d ++ [k].
Proof.
  unfold od_keys. induction d as [|[k0 v0] d IH]; simpl; [done|].
  intros Hin. case_decide; simplify_eq/=; [set_solver|].
  f_equal. apply IH. set_solver.
Qed.
End odict_facts.

Lemma size_list_to_set_le (l : list string) :
  (size (list_to_set l : gset string) ≤ length l)%nat.
Proof.
  induction l as [|x l IH].
  - by rewrite list_to_set_nil, size_empty.
  - rewrite list_to_set_cons, size_union_alt, size_singleton.
    assert (size (list_to_set l ∖ {[x]} : gset string)
            ≤ size (list_to_set l : gset string))%nat as H.
    { apply subseteq_size. set_solver. }
    simpl. lia.
Qed.

(** ** A loop rule for [for_each] *)

Lemma for_each_hoare {S : Type} (I : S → Prop) (R : S → S → Prop)
    (Q : string → S → Prop) (body : string → S → option S) (xs : list string) :
  (∀ s, R s s) →
  (∀ a b c, R a b → R b c → R a c) →
  (∀ x a b, Q x a → R a b → Q x b) →
  (∀ x s s', x ∈ xs → I s → body x s = Some s' → I s' ∧ R s s' ∧ Q x s') →
  ∀ s s', I s → for_each body xs s = Some s' →
    I s' ∧ R s s' ∧ ∀ x, x ∈ xs → Q x s'.
Proof.
  intros Hrefl Htrans Hstable.
  induction xs as [|x xs IH]; intros Hbody s s' HI Hrun; simpl in Hrun.
  - simplify_eq. split_and!; [done..|]. intros x Hx. by apply elem_of_nil in Hx.
  - destruct (body x s) as [s1|] eqn:Hx; [|done].
    destruct (Hbody x s s1) as (HI1 & HR1 & HQ1); [set_solver|done..|].
    destruct (IH (λ y a b Hy, Hbody y a b (proj2 (elem_of_cons _ _ _) (or_intror Hy)))
                 s1 s' HI1 Hrun) as (HI' & HR' & HQ').
    split_and!; [done|by eapply Htrans|].
    intros y [->|Hy]%elem_of_cons; [by eapply Hstable|by apply HQ'].
Qed.

Lemma for_each_total {S : Type} (I : S → Prop)
    (body : string → S → option S) (xs : list string) :
  (∀ x s, x ∈ xs → I s → ∃ s', body x s = Some s' ∧ I s') →
  ∀ s, I s → ∃ s', for_each body xs s = Some s' ∧ I s'.
Proof.
  induction xs as [|x xs IH]; intros Hbody s HI; simpl; [by eauto|].
  destruct (Hbody x s) as (s1 & -> & HI1); [set_solver|done|].
  apply IH; [|done]. intros y a Hy. apply Hbody. set_solver.
Qed.

(** ** The resolver *)

Section resolver_facts.
Context {E : Type} (tasks : odict (Task E)).
Implicit Types (st : sort_state) (n : string).

Local Abbreviation U := (list_to_set (mentioned tasks) : gset string).

Lemma registered_mentioned n : registered tasks n → n ∈ U.
Proof. unfold registered, mentioned. set_solver. Qed.

Lemma edge_mentioned a b : edge tasks a b → b ∈ U.
Proof.
  intros (t & Ht & Hb). unfold mentioned.
  apply elem_of_list_to_set, elem_of_app. right.
  apply list_elem_of_In, in_concat. exists (deps t). split.
  - apply list_elem_of_In, list_elem_of_fmap_2. by eapply od_get_Some_values.
  - by apply list_elem_of_In.
Qed.

(** *** Termination: the recursion depth never exceeds the number of
    names not yet visited. *)

Lemma visit_total fuel : ∀ n st,
  n ∈ U → visited st ⊆ U → size (U ∖ visited st) < fuel →
  ∃ st', visit tasks fuel n st = Some st'
         ∧ visited st ⊆ visited st' ∧ visited st' ⊆ U.
Proof.
  induction fuel as [|fuel IH]; intros n st Hn Hsub Hsize; [lia|].
  simpl. case_decide as Hvis; [by eauto|].
  destruct (od_get n tasks) as [task|] eqn:Hget;
    [|eexists; split; [done|]; simpl; set_solver].
  assert (size (U ∖ ({[n]} ∪ visited st)) < fuel) as Hlt.
  { assert (U ∖ ({[n]} ∪ visited st) ⊂ U ∖ visited st) as Hss.
    { split; [set_solver|]. intros Hc. specialize (Hc n). set_solver. }
    apply subset_size in Hss. lia. }
  destruct (for_each_total
    (λ s, {[n]} ∪ visited st ⊆ visited s ∧ visited s ⊆ U)
    (visit tasks fuel) (deps task)) with (s := mkSort ({[n]} ∪ visited st) (order st))
    as (st2 & -> & Hst2).
  - intros d s Hd [Hs1 Hs2].
    destruct (IH d s) as (s' & Hs' & ? & ?).
    + apply edge_mentioned with n. by exists task.
    + done.
    + eapply Nat.le_lt_trans; [|exact Hlt].
      apply subseteq_size. set_solver.
    + exists s'. set_solver.
  - simpl. set_solver.
  - eexists. split; [done|]. simpl. set_solver.
Qed.

Lemma topological_sort_total : ∃ ord, _topological_sort tasks = Some ord.
Proof.
  unfold _topological_sort.
  destruct (for_each_total (λ s, visited s ⊆ U)
    (visit tasks (sort_fuel tasks)) (od_keys tasks)) with (s := mkSort ∅ [])
    as (st & -> & _).
  - intros k s Hk Hs.
    destruct (visit_total (sort_fuel tasks) k s) as (s' & ? & ? & ?).
    + by apply registered_mentioned.
    + done.
    + unfold sort_fuel. apply Nat.lt_succ_r.
      etrans; [apply subseteq_size with (Y := U); set_solver|].
      apply size_list_to_set_le.
    + eauto.
  - simpl. set_solver.
  - by eexists.
Qed.

(** *** What every traversal preserves *)

Lemma extends_refl st : extends tasks st st.
Proof. split_and!; [done|by exists []; rewrite app_nil_r|done..]. Qed.

Lemma extends_trans a b c :
  extends tasks a b → extends tasks b c → extends tasks a c.
Proof.
  intros (Hv1 & [n1 Ho1] & Hi1 & Hp1) (Hv2 & [n2 Ho2] & Hi2 & Hp2).
  split_and!.
  - set_solver.
  - exists (n1 ++ n2). by rewrite Ho2, Ho1, app_assoc.
  - auto.
  - intros x. by rewrite Hp2, Hp1.
Qed.

Lemma extends_order a b x : extends tasks a b → x ∈ order a → x ∈ order b.
Proof. intros (_ & [new ->] & _) ?. set_solver. Qed.

Lemma visit_extends fuel : ∀ n st st',
  visit tasks fuel n st = Some st' → extends tasks st st' ∧ n ∈ visited st'.
Proof.
  induction fuel as [|fuel IH]; intros n st st' Hrun; [done|].
  simpl in Hrun. case_decide as Hvis.
  { simplify_eq. split; [apply extends_refl|done]. }
  destruct (od_get n tasks) as [task|] eqn:Hget.
  - destruct (for_each _ _ _) as [st2|] eqn:Hloop; [|done]. simplify_eq.
    assert (∀ d s s', d ∈ deps task → True →
              visit tasks fuel d s = Some s' →
              True ∧ extends tasks s s' ∧ True) as Hbody.
    { intros d s s' _ _ Hd. by destruct (IH d s s' Hd). }
    destruct (for_each_hoare (λ _, True) (extends tasks) (λ _ _, True)
      _ _ extends_refl extends_trans (λ _ _ _ _ _, I) Hbody _ _ I Hloop)
      as (_ & (Hv & [new Hnew] & Hinv & Hpend) & _).
    simpl in *.
    assert (n ∈ visited st2) by set_solver.
    assert (sort_inv tasks st → n ∉ order st2) as Hfresh.
    { intros [_ Hin] Hn. specialize (Hpend n).
      assert (pending tasks st2 n) as (_ & _ & ?); [|done].
      apply Hpend. split_and!; simpl.
      - by eapply od_get_Some_keys.
      - set_solver.
      - intros ?%Hin. tauto. }
    split; [|done]. split_and!; simpl.
    + set_solver.
    + exists (new ++ [n]). by rewrite Hnew, app_assoc.
    + intros Hst. destruct Hinv as [Hnd Hin].
      { destruct Hst as [? Hin]. split; [done|]. simpl.
        intros x ?%Hin. set_solver. }
      split; simpl.
      * apply NoDup_app. split_and!; [done| |apply NoDup_singleton].
        intros x Hx ->%list_elem_of_singleton. by apply Hfresh.
      * intros x [Hx| ->%list_elem_of_singleton]%elem_of_app; [by apply Hin|].
        split; [done|]. by eapply od_get_Some_keys.
    + intros x. unfold pending in *. simpl. specialize (Hpend x). simpl in Hpend.
      destruct (decide (x = n)) as [->|Hne]; [set_solver|].
      rewrite elem_of_app, list_elem_of_singleton. set_solver.
  - simplify_eq. split; [|set_solver]. split_and!; simpl.
    + set_solver.
    + exists []. by rewrite app_nil_r.
    + intros [? Hin]. split; [done|]. simpl. intros x ?%Hin. set_solver.
    + intros x. unfold pending, registered. simpl.
      apply od_get_None in Hget. set_solver.
Qed.

(** Any registry: the resolver returns, and the order lists exactly the
    registered names, each once. *)
Lemma topological_sort_complete :
  ∃ ord, _topological_sort tasks = Some ord
         ∧ NoDup ord ∧ ∀ n, n ∈ ord ↔ registered tasks n.
Proof.
  destruct topological_sort_total as [ord Hord]. exists ord.
  split; [done|]. unfold _topological_sort in Hord.
  destruct (for_each _ _ _) as [st|] eqn:Hloop; [|done]. simplify_eq/=.
  assert (∀ k s s', k ∈ od_keys tasks →
            sort_inv tasks s ∧ (∀ p, ¬ pending tasks s p) →
            visit tasks (sort_fuel tasks) k s = Some s' →
            (sort_inv tasks s' ∧ ∀ p, ¬ pending tasks s' p)
            ∧ extends tasks s s' ∧ k ∈ visited s') as Hbody.
  { intros k s s' _ [Hs Hp] Hk.
    destruct (visit_extends _ _ _ _ Hk) as [Hext ?].
    pose proof Hext as (? & ? & Hi & Hpe).
    split_and!; [by apply Hi| |done..]. intros p. rewrite Hpe. apply Hp. }
  assert (sort_inv tasks (mkSort ∅ []) ∧ ∀ p, ¬ pending tasks (mkSort ∅ []) p)
    as Hinit.
  { split; [split; simpl; [constructor|set_solver]|].
    intros p (_ & ? & _). set_solver. }
  destruct (for_each_hoare _ (extends tasks) (λ k s, k ∈ visited s) _ _
    extends_refl extends_trans
    (λ x a b Hx Hab, proj1 Hab x Hx) Hbody _ _ Hinit Hloop)
    as ([[Hnd Hin] Hnp] & _ & Hall).
  split; [done|]. intros n. split; [by intros [_ ?]%Hin|].
  intros Hn. destruct (decide (n ∈ order st)); [done|].
  exfalso. apply (Hnp n). split_and!; [done|by apply Hall|done].
Qed.

(** *** Acyclic registries with registered dependencies *)

Section dag.
Hypothesis Hreg : deps_registered tasks.
Hypothesis Hacyc : acyclic tasks.

Lemma visit_dag fuel : ∀ n st st',
  visit tasks fuel n st = Some st' →
  registered tasks n → sort_inv tasks st → respects tasks (order st) →
  (∀ p, pending tasks st p → tc (edge tasks) p n) →
  respects tasks (order st') ∧ n ∈ order st'.
Proof.
  induction fuel as [|fuel IH]; intros n st st' Hrun Hn Hinv Hres Hpend;
    [done|].
  simpl in Hrun. case_decide as Hvis.
  { simplify_eq. split; [done|].
    destruct (decide (n ∈ order st')); [done|].
    destruct (Hacyc n). by apply Hpend. }
  destruct (od_get n tasks) as [task|] eqn:Hget;
    [|by apply od_get_None in Hget].
  destruct (for_each _ _ _) as [st2|] eqn:Hloop; [|done]. simplify_eq.
  set (J := λ s : sort_state, sort_inv tasks s ∧ respects tasks (order s)
          ∧ ∀ p, pending tasks s p → p = n ∨ tc (edge tasks) p n).
  assert (∀ d s s', d ∈ deps task → J s →
            visit tasks fuel d s = Some s' →
            J s' ∧ extends tasks s s' ∧ d ∈ order s') as Hbody.
  { intros d s s' Hd (Hs & Hr & Hp) Hd'. unfold J.
    destruct (visit_extends _ _ _ _ Hd') as [Hext _].
    assert (edge tasks n d) as Hedge by by exists task.
    destruct (IH d s s' Hd') as [Hr' Hin']; [by eapply Hreg|done..| |].
    { intros p [->|Hpn]%Hp; [by apply tc_once|].
      eapply tc_r; eauto. }
    pose proof Hext as (_ & _ & Hi & Hpe).
    split_and!; [by apply Hi|done| |done..].
    intros p ?%Hpe. by apply Hp. }
  assert (J (mkSort ({[n]} ∪ visited st) (order st))) as Hinit.
  { unfold J. split_and!; simpl.
    - destruct Hinv as [? Hin]. split; [done|]. simpl.
      intros x ?%Hin. set_solver.
    - done.
    - intros p (? & Hp & ?). simpl in *.
      apply elem_of_union in Hp as [->%elem_of_singleton|Hp]; [by left|].
      right. by apply Hpend. }
  destruct (for_each_hoare J (extends tasks) (λ d s, d ∈ order s) _ _
    extends_refl extends_trans
    (λ x a b Hx Hab, extends_order a b x Hab Hx) Hbody _ _ Hinit Hloop)
    as ((Hinv2 & Hres2 & _) & _ & Hdeps).
  split.
  - simpl.
    intros i m t d Hi Ht Hd.
    destruct (decide (i < length (order st2))) as [Hlt|Hge].
    + rewrite lookup_app_l in Hi by done.
      destruct (Hres2 i m t d Hi Ht Hd) as (j & Hj & Hjd).
      exists j. split; [done|]. rewrite lookup_app_l by lia. done.
    + rewrite lookup_app_r in Hi by lia.
      apply list_lookup_singleton_Some in Hi as [Hi ->].
      simplify_eq.
      destruct (proj1 (list_elem_of_lookup _ _) (Hdeps d Hd)) as [j Hj].
      exists j. split; [|by apply lookup_app_l_Some].
      apply lookup_lt_Some in Hj. lia.
  - simpl. set_solver.
Qed.

Lemma topological_sort_respects ord :
  _topological_sort tasks = Some ord → respects tasks ord.
Proof.
  unfold _topological_sort. intros Hord.
  destruct (for_each _ _ _) as [st|] eqn:Hloop; [|done]. simplify_eq/=.
  set (J := λ s : sort_state, sort_inv tasks s ∧ respects tasks (order s)
          ∧ ∀ p, ¬ pending tasks s p).
  assert (∀ k s s', k ∈ od_keys tasks → J s →
            visit tasks (sort_fuel tasks) k s = Some s' →
            J s' ∧ extends tasks s s' ∧ True) as Hbody.
  { intros k s s' Hk (Hs & Hr & Hp) Hk'. unfold J.
    destruct (visit_extends _ _ _ _ Hk') as [Hext _].
    pose proof Hext as (_ & _ & Hi & Hpe).
    destruct (visit_dag _ _ _ _ Hk') as [Hr' _]; [done..| |].
    { intros p ?. by destruct (Hp p). }
    split_and!; [by apply Hi|done| |done..].
    intros p ?%Hpe. by apply (Hp p). }
  assert (J (mkSort ∅ [])) as Hinit.
  { unfold J. split_and!; simpl.
    - split; simpl; [constructor|set_solver].
    - intros i ? ? ? Hi. by rewrite lookup_nil in Hi.
    - intros p (_ & ? & _). set_solver. }
  by destruct (for_each_hoare J (extends tasks) (λ _ _, True) _ _
    extends_refl extends_trans (λ _ _ _ _ _, I) Hbody _ _ Hinit Hloop)
    as ((_ & ? & _) & _).
Qed.
End dag.
End resolver_facts.

(** ** Checking the graph hypotheses on a concrete registry *)

Section check_facts.
Context {E : Type} (tasks : odict (Task E)).

Lemma deps_registeredb_spec :
  deps_registeredb tasks = true → deps_registered tasks.
Proof.
  unfold deps_registeredb. rewrite forallb_forall.
  intros Hall a b (t & Ht & Hb).
  apply od_get_Some_values, list_elem_of_In, Hall in Ht.
  rewrite forallb_forall in Ht.
  apply list_elem_of_In, Ht in Hb. by apply bool_decide_eq_true in Hb.
Qed.

Lemma ranked_edge rank a b :
  ranked rank tasks = true → edge tasks a b → rank b < rank a.
Proof.
  unfold ranked. rewrite forallb_forall. intros Hall (t & Ht & Hb).
  apply od_get_Some_elem, list_elem_of_In, Hall in Ht.
  rewrite forallb_forall in Ht.
  apply list_elem_of_In, Ht in Hb. by apply Nat.ltb_lt in Hb.
Qed.

Lemma ranked_acyclic rank : ranked rank tasks = true → acyclic tasks.
Proof.
  intros Hr a Ha.
  assert (∀ x y, tc (edge tasks) x y → rank y < rank x) as Hlt.
  { induction 1 as [x y Hxy|x y z Hxy _ IH].
    - by eapply ranked_edge.
    - apply (ranked_edge rank) in Hxy; [lia|done]. }
  apply Hlt in Ha. lia.
Qed.
End check_facts.

(** ** Claims about the resolver *)

(** C1. For a registry whose dependency lists name only registered tasks
    and whose dependency relation is acyclic, the resolver returns an order
    that contains every registered task (once, and nothing else) and in
    which every dependency of a task stands at a strictly smaller index than
    the task. *)
Theorem topological_sort_dag {E : Type} (tasks : odict (Task E)) :
  deps_registered tasks → acyclic tasks →
  ∃ ord, _topological_sort tasks = Some ord
         ∧ NoDup ord
         ∧ (∀ n, registered tasks n → n ∈ ord)
         ∧ (∀ n, n ∈ ord → registered tasks n)
         ∧ respects tasks ord.
Proof.
  intros Hreg Hacyc.
  destruct (topological_sort_complete tasks) as (ord & Hord & Hnd & Hiff).
  exists ord. split_and!; [done..|by apply Hiff|by apply Hiff|].
  by apply topological_sort_respects.
Qed.

Lemma topological_sort_dag_main :
  let reg := tasks (main_pipeline (λ _, returns (E:=unit) 0) "r0") in
  ∃ ord, _topological_sort reg = Some ord
         ∧ NoDup ord
         ∧ (∀ n, registered reg n → n ∈ ord)
         ∧ (∀ n, n ∈ ord → registered reg n)
         ∧ respects reg ord.
Proof.
  intros reg. apply (topological_sort_dag reg).
  - apply deps_registeredb_spec. vm_compute. reflexivity.
  - apply (ranked_acyclic reg (λ n, index_of n (od_keys reg))).
    vm_compute. reflexivity.
Defined.

Lemma cyclic_pipeline_cycle : tc (edge (tasks cyclic_pipeline)) "A" "A".
Proof.
  apply tc_l with "B"; [|apply tc_once].
  - eexists. split; [reflexivity|]. simpl. set_solver.
  - eexists. split; [reflexivity|]. simpl. set_solver.
Qed.

(** C2, as stated, fails: with [A] depending on [B] and [B] on [A] the
    resolver does not raise; it returns the order [B, A]. *)
Lemma cyclic_order_returned :
  tc (edge (tasks cyclic_pipeline)) "A" "A"
  ∧ _topological_sort (tasks cyclic_pipeline) = Some ["B"; "A"].
Proof. split; [apply cyclic_pipeline_cycle|]. vm_compute. reflexivity. Qed.

(** C2, amended. For a registry whose dependency relation has a cycle the
    resolver still returns: the order lists every registered task exactly
    once (nothing is dropped or repeated), and it cannot place every task
    after its dependencies. *)
Theorem topological_sort_cycle {E : Type} (tasks : odict (Task E)) (a : string) :
  tc (edge tasks) a a →
  ∃ ord, _topological_sort tasks = Some ord
         ∧ NoDup ord
         ∧ (∀ n, n ∈ ord ↔ registered tasks n)
         ∧ ¬ respects tasks ord.
Proof.
  intros Hcyc.
  destruct (topological_sort_complete tasks) as (ord & Hord & Hnd & Hiff).
  exists ord. split_and!; [done..|]. intros Hres.
  assert (∀ x y, tc (edge tasks) x y →
            ∀ i, ord !! i = Some x → ∃ j, j < i ∧ ord !! j = Some y) as Hdown.
  { induction 1 as [x y (t & Ht & Hy)|x y z (t & Ht & Hy) _ IH]; intros i Hi.
    - by eapply Hres.
    - destruct (Hres i x t y Hi Ht Hy) as (j & Hj & Hjy).
      destruct (IH j Hjy) as (k & Hk & Hkz). exists k. split; [lia|done]. }
  assert (registered tasks a) as Ha.
  { inversion Hcyc as [? ? (t & Ht & _)|? ? ? (t & Ht & _)]; subst;
      by eapply od_get_Some_keys. }
  apply Hiff, list_elem_of_lookup in Ha as [i Hi].
  destruct (Hdown a a Hcyc i Hi) as (j & Hj & Hja).
  pose proof (NoDup_lookup _ _ _ _ Hnd Hi Hja). lia.
Qed.

Lemma topological_sort_cycle_AB :
  ∃ ord, _topological_sort (tasks cyclic_pipeline) = Some ord
         ∧ NoDup ord
         ∧ (∀ n, n ∈ ord ↔ registered (tasks cyclic_pipeline) n)
         ∧ ¬ respects (tasks cyclic_pipeline) ord.
Proof.
  apply (topological_sort_cycle (tasks cyclic_pipeline) "A").
  apply tc_l with "B"; [|apply tc_once].
  - eexists. split; [reflexivity|]. simpl. set_solver.
  - eexists. split; [reflexivity|]. simpl. set_solver.
Defined.

(** ** The engine *)

Ltac count_invocations :=
  unfold invocations;
  rewrite ?filter_app, ?filter_cons, ?filter_nil;
  repeat case_decide; simplify_eq; try done.

Lemma invocations_app n evs1 evs2 :
  invocations n (evs1 ++ evs2) = invocations n evs1 + invocations n evs2.
Proof. unfold invocations. by rewrite filter_app, length_app. Qed.

Lemma invocations_zero n evs : invocations n evs = 0 ↔ Invoke n ∉ evs.
Proof.
  unfold invocations. rewrite length_zero_iff_nil. split.
  - intros Hnil Hin.
    assert (Invoke n ∈ filter (λ e, e = Invoke n) evs) as Hf
      by by apply list_elem_of_filter.
    rewrite Hnil in Hf. by apply elem_of_nil in Hf.
  - intros Hnot. induction evs as [|e evs IH]; [done|].
    rewrite filter_cons. case_decide; [set_solver|]. apply IH. set_solver.
Qed.

Lemma invocations_other n evs :
  (∀ e, e ∈ evs → subject e ≠ Some n) → invocations n evs = 0.
Proof. intros H. apply invocations_zero. intros ?%H. by simpl in *. Qed.

Lemma well_keyedb_spec {E : Type} (tasks : odict (Task E)) :
  well_keyedb tasks = true → well_keyed tasks.
Proof.
  unfold well_keyedb. rewrite forallb_forall. intros Hall k t Hk.
  apply od_get_Some_elem, list_elem_of_In, Hall in Hk.
  by apply bool_decide_eq_true in Hk.
Qed.

Lemma well_keyed_new {E : Type} nm rid :
  well_keyed (tasks (new_Orchestrator (E:=E) nm rid)).
Proof. by intros k t. Qed.

Lemma well_keyed_add {E : Type} n f d c (o : Orchestrator E) :
  well_keyed (tasks o) → well_keyed (tasks (add n f d c o)).
Proof.
  intros Hwk k t. simpl. rewrite od_get_set.
  case_decide; [by intros [= <-]|apply Hwk].
Qed.

Section engine_facts.
Context {E : Type} (now : E → Z * E) (cfg : Config).
Implicit Types (m : machine E) (evs : list event) (n : string).

Local Abbreviation loop_body := (loop_body now cfg).
Local Abbreviation run_loop := (run_loop now cfg).
Local Abbreviation run := (run now cfg).

Lemma deps_succeeded_ext (f g : string → option TaskResult) ds :
  (∀ d, d ∈ ds → f d = g d) → deps_succeeded f ds = deps_succeeded g ds.
Proof.
  induction ds as [|d ds IH]; intros Hfg; simpl; [done|].
  rewrite <- (Hfg d) by set_solver. destruct (f d); [|done].
  case_decide; [|done]. apply IH. intros. apply Hfg. set_solver.
Qed.

(** Every dependency of a runnable task has status [SUCCESS]. *)
Lemma deps_succeeded_true (f : string → option TaskResult) ds :
  deps_succeeded f ds = true ↔
  ∀ d, d ∈ ds → ∃ r, f d = Some r ∧ status r = SUCCESS.
Proof.
  induction ds as [|d ds IH]; simpl.
  - split; [|done]. intros _ d Hd. by apply elem_of_nil in Hd.
  - destruct (f d) as [r|] eqn:Hd.
    + case_decide as Hs.
      * rewrite IH. split.
        -- intros H x [->|Hx]%elem_of_cons; [by eauto|by apply H].
        -- intros H x Hx. apply H. set_solver.
      * split; [done|]. intros H.
        destruct (H d) as (r' & Hr' & ?); [set_solver|]. congruence.
    + split; [done|]. intros H.
      destruct (H d) as (r' & Hr' & ?); [set_solver|]. congruence.
Qed.

Lemma execute_task_spec (task : Task E) w :
  ∃ r w' evs, _execute_task now cfg task w = (r, w', evs)
    ∧ (status r = SUCCESS ∨ status r = FAILED)
    ∧ invocations (name task) evs = 1
    ∧ LogRunning (name task) ∈ evs
    ∧ ∀ e, e ∈ evs → subject e = Some (name task).
Proof.
  unfold _execute_task. destruct (now w) as [t0 w1].
  destruct (func task w1) as [[output|e] w2]; destruct (now w2) as [t1 w3].
  - eexists _, _, _. split; [done|]. split_and!; simpl.
    + by left.
    + count_invocations.
    + set_solver.
    + intros e'. rewrite !elem_of_cons, elem_of_nil.
      intros [->|[->|[->|[]]]]; done.
  - eexists _, _, _. split; [done|]. split_and!; simpl.
    + by right.
    + destruct (ALERT_ON_FAILURE cfg); count_invocations.
    + set_solver.
    + intros e' [->|[->|[->|He]%elem_of_cons]%elem_of_cons]%elem_of_cons;
        [done..|].
      destruct (ALERT_ON_FAILURE cfg); [|by apply elem_of_nil in He].
      by apply list_elem_of_singleton in He as ->.
Qed.

(** The loop body: one result is recorded under the key, all events are
    about the task, and the task runs exactly when [_can_run] holds. *)
Lemma loop_body_spec n m (task : Task E) :
  od_get n (tasks (self m)) = Some task → name task = n →
  ∃ r brk w' evs,
    loop_body n m = (Returned brk, mkMachine (set_result n r (self m)) w', evs)
    ∧ (∀ e, e ∈ evs → subject e = Some n ∨ e = LogCriticalStop)
    ∧ (brk = true → status r = FAILED ∧ critical task = true
                     ∧ _can_run (self m) task = true)
    ∧ (status r = FAILED → critical task = true → brk = true)
    ∧ verdict evs n (_can_run (self m) task) r.
Proof.
  intros Hget Hname. unfold loop_body. rewrite Hget.
  destruct (_can_run (self m) task) eqn:Hcan.
  - destruct (execute_task_spec task (world m))
      as (r & w' & evs & -> & Hst & Hinv & Hrun & Hsub).
    rewrite Hname in *.
    destruct (bool_decide (status r = FAILED) && critical task) eqn:Hbrk.
    + apply andb_true_iff in Hbrk as [Hf%bool_decide_eq_true Hc].
      eexists r, true, w', _. split; [done|]. split_and!; try done.
      * intros e [He|He%list_elem_of_singleton]%elem_of_app; [left|right];
          auto.
      * unfold verdict. split_and!; [done| |set_solver].
        rewrite invocations_app, Hinv. count_invocations.
    + eexists r, false, w', _. split; [done|]. split_and!; try done.
      * intros e He. left. auto.
      * intros Hf Hc. rewrite Hc, andb_true_r in Hbrk.
        by apply bool_decide_eq_false in Hbrk.
  - destruct (now (world m)) as [t0 w1]. destruct (now w1) as [t1 w2].
    eexists _, false, w2, _. split; [done|]. split_and!; try done.
    + intros e ->%list_elem_of_singleton. by left.
    + unfold verdict. simpl. split_and!; [done| |set_solver].
      count_invocations.
Qed.

Lemma results_at_cons (res0 res' : odict TaskResult) T r earlier d :
  od_get T res' = od_get T (od_set T r res0) → T ∉ earlier →
  results_at res0 res' (T :: earlier) d
  = results_at (od_set T r res0) res' earlier d.
Proof.
  intros HT Hnot. unfold results_at.
  destruct (decide (d = T)) as [->|Hne].
  - rewrite decide_True by left. by rewrite decide_False.
  - rewrite od_get_set, (decide_False (P := d = T)) by done.
    destruct (decide (d ∈ earlier)) as [Hin|Hout].
    + by rewrite decide_True by by right.
    + rewrite decide_False; [done|]. by intros [?|?]%elem_of_cons.
Qed.

Lemma verdict_app_l evs1 evs2 n ok r :
  (∀ e, e ∈ evs1 → subject e ≠ Some n) →
  verdict evs2 n ok r → verdict (evs1 ++ evs2) n ok r.
Proof.
  intros Hno. unfold verdict.
  rewrite invocations_app, (invocations_other n evs1) by done.
  destruct ok; set_solver.
Qed.

Lemma verdict_app_r evs1 evs2 n ok r :
  (∀ e, e ∈ evs2 → subject e ≠ Some n) →
  verdict evs1 n ok r → verdict (evs1 ++ evs2) n ok r.
Proof.
  intros Hno. unfold verdict.
  rewrite invocations_app, (invocations_other n evs2), Nat.add_0_r by done.
  destruct ok; set_solver.
Qed.

(** The loop over a duplicate-free list of registered names: it never
    raises; it considers a prefix [done] of the list; names outside the
    prefix keep their results and have no events; each considered task
    gets its verdict from the results recorded when it was considered; a
    critical task that failed is the last one considered. *)
Lemma run_loop_spec ord : ∀ m,
  well_keyed (tasks (self m)) → NoDup ord →
  (∀ n, n ∈ ord → registered (tasks (self m)) n) →
  ∃ m' evs done rest,
    run_loop ord m = (Returned tt, m', evs)
    ∧ ord = done ++ rest
    ∧ tasks (self m') = tasks (self m)
    ∧ o_name (self m') = o_name (self m)
    ∧ run_id (self m') = run_id (self m)
    ∧ (∀ n, n ∉ done →
         od_get n (results (self m')) = od_get n (results (self m)))
    ∧ (∀ e, e ∈ evs →
         e = LogCriticalStop ∨ ∃ n, subject e = Some n ∧ n ∈ done)
    ∧ (∀ i n task, done !! i = Some n →
         od_get n (tasks (self m)) = Some task →
         ∃ r, od_get n (results (self m')) = Some r
              ∧ verdict evs n
                  (deps_succeeded
                     (results_at (results (self m)) (results (self m'))
                        (take i done))
                     (deps task)) r
              ∧ (status r = FAILED → critical task = true →
                 S i = length done)).
Proof.
  induction ord as [|T ord IH]; intros m Hwk Hnd Hreg.
  { exists m, [], [], []. split_and!; try done.
    intros e He. by apply elem_of_nil in He. }
  apply NoDup_cons in Hnd as [HT Hnd].
  destruct (proj2 (od_get_is_Some (tasks (self m)) T)) as [task Htask];
    [apply Hreg; set_solver|].
  destruct (loop_body_spec T m task Htask (Hwk _ _ Htask))
    as (r & brk & w1 & evs1 & Hbody & Hsub & Hbrk & Hstop & Hver).
  simpl. rewrite Hbody. destruct brk.
  - (* break *)
    destruct Hbrk as (Hf & Hc & Hcan); [done|].
    eexists _, evs1, [T], ord. split_and!; try done.
    + intros n Hn. simpl. rewrite od_get_set. case_decide; set_solver.
    + intros e [?| ->]%Hsub; [right|by left]. exists T. set_solver.
    + intros i n task' Hi Htask'.
      apply list_lookup_singleton_Some in Hi as [-> <-]. simplify_eq.
      exists r. simpl. rewrite od_get_set, decide_True by done.
      split_and!; [done| |done].
      rewrite (deps_succeeded_ext _ (λ dep, od_get dep (results (self m)))).
      * apply Hver.
      * intros d _. unfold results_at. by rewrite decide_False by set_solver.
  - (* the loop goes on *)
    set (m1 := mkMachine (set_result T r (self m)) w1) in *.
    destruct (IH m1) as (m' & evs' & done' & rest' & Hrun & -> & Htasks
      & Hname & Hrid & Hkeep & Hevs & Hdone); [done..| |].
    { intros n Hn. apply Hreg. set_solver. }
    rewrite Hrun. simpl in Htasks, Hname, Hrid.
    assert (T ∉ done') as HT' by set_solver.
    exists m', (evs1 ++ evs'), (T :: done'), rest'.
    split_and!; try done.
    + intros n Hn. rewrite Hkeep by set_solver. simpl.
      rewrite od_get_set. case_decide; set_solver.
    + intros e [[?| ->]%Hsub|[?|(n & ? & ?)]%Hevs]%elem_of_app;
        [right|by left|by left|right].
      * exists T. set_solver.
      * exists n. set_solver.
    + intros i n task' Hi Htask'. destruct i as [|i]; simpl in Hi.
      * simplify_eq. exists r. rewrite Hkeep by done. simpl.
        rewrite od_get_set, decide_True by done.
        split_and!; [done| |].
        -- apply verdict_app_r.
           { intros e [?|(n' & ? & ?)]%Hevs; [by subst|]. congruence. }
           rewrite (deps_succeeded_ext _
             (λ dep, od_get dep (results (self m)))); [apply Hver|].
           intros d _. unfold results_at.
           by rewrite decide_False by set_solver.
        -- intros Hf Hc. by specialize (Hstop Hf Hc).
      * assert (n ≠ T) as HnT.
        { intros ->. apply HT', list_elem_of_lookup. eauto. }
        destruct (Hdone i n task' Hi Htask') as (r' & Hr' & Hv' & Hlast).
        exists r'. split_and!; [done| |].
        -- apply verdict_app_l.
           { intros e [?| ->]%Hsub; [congruence|done]. }
           erewrite deps_succeeded_ext; [exact Hv'|].
           intros d _. simpl. apply results_at_cons.
           ++ rewrite Hkeep by done. done.
           ++ intros Hin. apply HT'. by eapply subseteq_take.
        -- intros Hf Hc. simpl. f_equal. by apply Hlast.
Qed.

Lemma count_events_app p evs1 evs2 :
  count_events p (evs1 ++ evs2) = count_events p evs1 + count_events p evs2.
Proof. unfold count_events. by rewrite List.filter_app, length_app. Qed.

Lemma count_events_cons p e evs :
  count_events p (e :: evs)
  = (if p e then 1 else 0) + count_events p evs.
Proof. unfold count_events. simpl. by destruct (p e). Qed.

Lemma count_events_none p evs :
  (∀ e, e ∈ evs → p e = false) → count_events p evs = 0.
Proof.
  unfold count_events. induction evs as [|e evs IH]; intros H; [done|].
  simpl. rewrite H by set_solver. apply IH. intros. apply H. set_solver.
Qed.

Lemma loop_event_kind e :
  (e = LogCriticalStop ∨ ∃ n, subject e = Some n) →
  is_summary e = false ∧ is_export e = false.
Proof. intros [->|[n Hn]]; [done|]. by destruct e. Qed.

Lemma print_summary_count (o : Orchestrator E) dur :
  count_events is_summary (_print_summary o dur) = 1
  ∧ count_events is_export (_print_summary o dur) = 0
  ∧ ∀ e, e ∈ _print_summary o dur → subject e = None.
Proof.
  unfold _print_summary.
  assert (∀ e, e ∈ ((λ '(n, r),
            LogSummaryLine (status r) n (duration r) (records r))
            <$> results o) →
          is_summary e = false ∧ is_export e = false ∧ subject e = None)
    as Hlines.
  { intros e ([n r] & -> & _)%list_elem_of_fmap. done. }
  split_and!.
  - rewrite count_events_cons, (count_events_none is_summary); [done|].
    intros e He. by apply Hlines.
  - rewrite count_events_cons, (count_events_none is_export _); [done|].
    intros e He. by apply Hlines.
  - intros e [->|He]%elem_of_cons; [done|]. by apply Hlines.
Qed.

(** A whole run over a registry built by [add]: it returns, and the loop
    facts of [run_loop_spec] hold for the events of the run; the summary
    is printed once and the results file is written once. *)
Lemma run_spec m :
  well_keyed (tasks (self m)) →
  ∃ ord m' evs done rest,
    _topological_sort (tasks (self m)) = Some ord
    ∧ run m = Some (Returned tt, m', evs)
    ∧ ord = done ++ rest
    ∧ NoDup ord
    ∧ (∀ n, n ∈ ord ↔ registered (tasks (self m)) n)
    ∧ tasks (self m') = tasks (self m)
    ∧ (∀ n, n ∉ done →
         od_get n (results (self m')) = od_get n (results (self m)))
    ∧ (∀ e n, e ∈ evs → subject e = Some n → n ∈ done)
    ∧ (∀ i n task, done !! i = Some n →
         od_get n (tasks (self m)) = Some task →
         ∃ r, od_get n (results (self m')) = Some r
              ∧ verdict evs n
                  (deps_succeeded
                     (results_at (results (self m)) (results (self m'))
                        (take i done))
                     (deps task)) r
              ∧ (status r = FAILED → critical task = true →
                 S i = length done))
    ∧ count_events is_summary evs = 1
    ∧ count_events is_export evs = 1
    ∧ ∃ dur evs_loop,
        evs = [LogPipeline (o_name (self m)) (run_id (self m)); LogOrder ord]
              ++ evs_loop ++ _print_summary (self m') dur
              ++ _export_results cfg (self m')
        ∧ ∀ e, e ∈ evs_loop → is_summary e = false ∧ is_export e = false.
Proof.
  intros Hwk.
  destruct (topological_sort_complete (tasks (self m)))
    as (ord & Hord & Hnd & Hiff).
  unfold run. rewrite Hord. destruct (now (world m)) as [t_start w1].
  destruct (run_loop_spec ord (mkMachine (self m) w1))
    as (m2 & evs & seen & rest & Hrun & -> & Htasks & _ & _ & Hkeep
        & Hevs & Hdone); [done..|(intros; by apply Hiff)|].
  rewrite Hrun. destruct (now (world m2)) as [t_end w3].
  simpl in Htasks, Hkeep, Hdone.
  destruct (print_summary_count (self m2) (t_end - t_start)%Z)
    as (Hs1 & Hs2 & Hs3).
  eexists _, _, _, seen, rest. split_and!; try done.
  - intros e n. unfold _export_results.
    rewrite !elem_of_app, !elem_of_cons, !elem_of_nil.
    intros [[->|[->|[]]]|[He|[He|[->|[->|[]]]]]] Hsub; try done.
    + destruct (Hevs e He) as [->|(n' & ? & ?)]; [done|congruence].
    + apply Hs3 in He. congruence.
  - intros i n task Hi Htask.
    destruct (Hdone i n task Hi Htask) as (r & Hr & Hv & Hlast).
    exists r. split_and!; [done| |done].
    apply verdict_app_l.
    { intros e. rewrite !elem_of_cons, elem_of_nil.
      by intros [->|[->|[]]]. }
    apply verdict_app_r; [|done].
    intros e. unfold _export_results.
    rewrite !elem_of_app, !elem_of_cons, !elem_of_nil.
    intros [He|[->|[->|[]]]]; [|done..]. apply Hs3 in He. congruence.
  - rewrite !count_events_app, Hs1.
    rewrite (count_events_none is_summary evs); [done|].
    intros e He. apply loop_event_kind.
    destruct (Hevs e He) as [?|(n & ? & _)]; eauto.
  - rewrite !count_events_app, Hs2.
    rewrite (count_events_none is_export evs); [done|].
    intros e He. apply loop_event_kind.
    destruct (Hevs e He) as [?|(n & ? & _)]; eauto.
  - eexists _, evs. split; [done|].
    intros e He. apply loop_event_kind.
    destruct (Hevs e He) as [?|(n & ? & _)]; eauto.
Qed.

End engine_facts.

Section engine_account.
Context {E : Type} (now : E → Z * E) (cfg : Config).
Implicit Types (m : machine E) (evs : list event) (n : string).

(** The loop body in terms of the operation and the clock: what it stores
    and the world it leaves are those of [called] when the task can run
    and those of [passed_over] when it cannot. *)
Lemma loop_body_account n m (task : Task E) :
  od_get n (tasks (self m)) = Some task → name task = n →
  ∃ r brk w' evs,
    loop_body now cfg n m
    = (Returned brk, mkMachine (set_result n r (self m)) w', evs)
    ∧ (r, w') = (if _can_run (self m) task
                 then called now task (world m)
                 else passed_over now n (world m))
    ∧ (∀ e, e ∈ evs → subject e = Some n ∨ e = LogCriticalStop)
    ∧ (brk = true → status r = FAILED ∧ critical task = true)
    ∧ (status r = FAILED → critical task = true → brk = true)
    ∧ verdict evs n (_can_run (self m) task) r.
Proof.
  intros Hget Hname.
  destruct (loop_body_spec now cfg n m task Hget Hname)
    as (r & brk & w' & evs & Hbody & Hsub & Hbrk & Hstop & Hver).
  exists r, brk, w', evs. split_and!; try done.
  - revert Hbody. unfold loop_body, _execute_task, called, passed_over.
    rewrite Hget. destruct (_can_run (self m) task).
    + destruct (now (world m)) as [t0 w0].
      destruct (func task w0) as [[v|e] w1]; destruct (now w1) as [t1 w2];
        cbn [status bool_decide andb];
        [|destruct (bool_decide (FAILED = FAILED) && critical task)];
        intros [= _ Hr <- _];
        apply (f_equal (od_get n)) in Hr; rewrite !od_get_set in Hr;
        rewrite !decide_True in Hr by done; by injection Hr as <-.
    + destruct (now (world m)) as [t0 w0]. destruct (now w0) as [t1 w1].
      intros [= _ Hr <- _].
      apply (f_equal (od_get n)) in Hr. rewrite !od_get_set in Hr.
      rewrite !decide_True in Hr by done. by injection Hr as <-.
  - intros Hb. by destruct (Hbrk Hb) as (? & ? & _).
Qed.

(** The loop over a duplicate-free list of registered names, with the
    worlds it goes through: [ws] holds the world before each considered
    task and, last, the world the loop leaves. Each considered task is
    called or passed over according to the results recorded when it is
    considered, on the world the tasks before it left. *)
Lemma run_loop_account ord : ∀ m,
  well_keyed (tasks (self m)) → NoDup ord →
  (∀ n, n ∈ ord → registered (tasks (self m)) n) →
  ∃ m' evs (seen rest : list string) (ws : list E),
    run_loop now cfg ord m = (Returned tt, m', evs)
    ∧ ord = seen ++ rest
    ∧ tasks (self m') = tasks (self m)
    ∧ (∀ n, n ∉ seen →
         od_get n (results (self m')) = od_get n (results (self m)))
    ∧ (∀ e, e ∈ evs →
         e = LogCriticalStop ∨ ∃ n, subject e = Some n ∧ n ∈ seen)
    ∧ length ws = S (length seen)
    ∧ ws !! 0 = Some (world m)
    ∧ ws !! length seen = Some (world m')
    ∧ (∀ i n task, seen !! i = Some n →
         od_get n (tasks (self m)) = Some task →
         ∃ w w' r,
           ws !! i = Some w ∧ ws !! S i = Some w'
           ∧ od_get n (results (self m')) = Some r
           ∧ (r, w')
             = (if deps_succeeded
                     (results_at (results (self m)) (results (self m'))
                        (take i seen))
                     (deps task)
                then called now task w else passed_over now n w)
           ∧ verdict evs n
               (deps_succeeded
                  (results_at (results (self m)) (results (self m'))
                     (take i seen))
                  (deps task)) r
           ∧ (status r = FAILED → critical task = true →
              S i = length seen))
    ∧ (rest ≠ [] →
       ∃ n task r, last seen = Some n
         ∧ od_get n (tasks (self m)) = Some task ∧ critical task = true
         ∧ od_get n (results (self m')) = Some r ∧ status r = FAILED).
Proof.
  induction ord as [|T ord IH]; intros m Hwk Hnd Hreg.
  { exists m, [], [], [], [world m]. split_and!; try done.
    intros e He. by apply elem_of_nil in He. }
  apply NoDup_cons in Hnd as [HT Hnd].
  destruct (proj2 (od_get_is_Some (tasks (self m)) T)) as [task Htask];
    [apply Hreg; set_solver|].
  destruct (loop_body_account T m task Htask (Hwk _ _ Htask))
    as (r & brk & w1 & evs1 & Hbody & Hacc & Hsub & Hbrk & Hstop & Hver).
  assert (∀ d, results_at (results (self m))
                 (results (set_result T r (self m))) [] d
               = od_get d (results (self m))) as Hat0.
  { intros d. unfold results_at. by rewrite decide_False by set_solver. }
  cbn [run_loop]. rewrite Hbody. destruct brk.
  - (* break *)
    destruct Hbrk as (Hf & Hc); [done|].
    eexists _, evs1, [T], ord, [world m; w1]. split_and!; try done.
    + intros n Hn. cbn. rewrite od_get_set. case_decide; set_solver.
    + intros e [?| ->]%Hsub; [right|by left]. exists T. set_solver.
    + intros i n task' Hi Htask'.
      apply list_lookup_singleton_Some in Hi as [-> <-]. simplify_eq.
      exists (world m), w1, r. cbn [self results set_result take].
      rewrite od_get_set, decide_True by done.
      rewrite (deps_succeeded_ext _ (λ dep, od_get dep (results (self m))))
        by (intros d _; apply Hat0).
      split_and!; done.
    + intros _. exists T, task, r. cbn. rewrite od_get_set, decide_True by done.
      split_and!; done.
  - (* the loop goes on *)
    set (m1 := mkMachine (set_result T r (self m)) w1) in *.
    destruct (IH m1) as (m' & evs' & seen & rest & ws & Hrun & -> & Htasks
      & Hkeep & Hevs & Hlen & Hfirst & Hlast & Hdone & Hcut); [done..| |].
    { intros n Hn. apply Hreg. set_solver. }
    rewrite Hrun. cbn [m1 self world tasks set_result results] in *.
    assert (T ∉ seen) as HT' by set_solver.
    exists m', (evs1 ++ evs'), (T :: seen), rest, (world m :: ws).
    split_and!; try done.
    + intros n Hn. rewrite Hkeep by set_solver.
      rewrite od_get_set. case_decide; set_solver.
    + intros e [[?| ->]%Hsub|[?|(n & ? & ?)]%Hevs]%elem_of_app;
        [right|by left|by left|right].
      * exists T. set_solver.
      * exists n. set_solver.
    + cbn. by rewrite Hlen.
    + intros i n task' Hi Htask'. destruct i as [|i]; cbn in Hi.
      * simplify_eq. exists (world m), w1, r. cbn [lookup list_lookup take].
        rewrite Hkeep by done. rewrite od_get_set, decide_True by done.
        rewrite (deps_succeeded_ext _ (λ dep, od_get dep (results (self m)))).
        2:{ intros d _. unfold results_at. by rewrite decide_False by set_solver. }
        split_and!; [done..| |].
        -- apply verdict_app_r; [|done].
           intros e [?|(n' & ? & ?)]%Hevs; [by subst|]. congruence.
        -- intros Hf Hc. by specialize (Hstop Hf Hc).
      * assert (n ≠ T) as HnT.
        { intros ->. apply HT', list_elem_of_lookup. eauto. }
        destruct (Hdone i n task' Hi Htask')
          as (w & w' & r' & Hw & Hw' & Hr' & Hacc' & Hv' & Hstop').
        exists w, w', r'. cbn [lookup list_lookup].
        assert (deps_succeeded
                  (results_at (results (self m)) (results (self m'))
                     (take (S i) (T :: seen))) (deps task')
                = deps_succeeded
                    (results_at (od_set T r (results (self m)))
                       (results (self m')) (take i seen)) (deps task'))
          as ->.
        { apply deps_succeeded_ext. intros d _. cbn [take].
          apply results_at_cons.
          - by rewrite Hkeep by done.
          - intros Hin. apply HT'. by eapply subseteq_take. }
        split_and!; [done..| |].
        -- apply verdict_app_l; [|done].
           intros e [?| ->]%Hsub; [congruence|done].
        -- intros Hf Hc. cbn. f_equal. by apply Hstop'.
    + intros Hrest. destruct (Hcut Hrest) as (n & task' & r' & Hl & ?).
      exists n, task', r'. split; [|done].
      destruct seen as [|x seen]; [done|]. by rewrite last_cons, Hl.
Qed.

(** A whole run over a registry built by [add], with the worlds it goes
    through, from the world the first clock read leaves to the world
    [w_end] the loop leaves; the duration in the summary is the clock read
    then minus the clock read before the loop. *)
Lemma run_account m :
  well_keyed (tasks (self m)) →
  ∃ ord m' evs (seen rest : list string) (ws : list E) w_end evs_loop,
    _topological_sort (tasks (self m)) = Some ord
    ∧ run now cfg m = Some (Returned tt, m', evs)
    ∧ ord = seen ++ rest
    ∧ NoDup ord
    ∧ (∀ n, n ∈ ord ↔ registered (tasks (self m)) n)
    ∧ tasks (self m') = tasks (self m)
    ∧ (∀ n, n ∉ seen →
         od_get n (results (self m')) = od_get n (results (self m)))
    ∧ (∀ e n, e ∈ evs → subject e = Some n → n ∈ seen)
    ∧ run_loop now cfg ord (mkMachine (self m) (now (world m)).2)
      = (Returned tt, mkMachine (self m') w_end, evs_loop)
    ∧ world m' = (now w_end).2
    ∧ evs = [LogPipeline (o_name (self m)) (run_id (self m)); LogOrder ord]
            ++ evs_loop
            ++ _print_summary (self m')
                 ((now w_end).1 - (now (world m)).1)%Z
            ++ _export_results cfg (self m')
    ∧ (∀ e, e ∈ evs_loop → is_summary e = false ∧ is_export e = false)
    ∧ length ws = S (length seen)
    ∧ ws !! 0 = Some (now (world m)).2
    ∧ ws !! length seen = Some w_end
    ∧ (∀ i n task, seen !! i = Some n →
         od_get n (tasks (self m)) = Some task →
         ∃ w w' r,
           ws !! i = Some w ∧ ws !! S i = Some w'
           ∧ od_get n (results (self m')) = Some r
           ∧ (r, w')
             = (if deps_succeeded
                     (results_at (results (self m)) (results (self m'))
                        (take i seen))
                     (deps task)
                then called now task w else passed_over now n w)
           ∧ verdict evs n
               (deps_succeeded
                  (results_at (results (self m)) (results (self m'))
                     (take i seen))
                  (deps task)) r
           ∧ (status r = FAILED → critical task = true →
              S i = length seen))
    ∧ (rest ≠ [] →
       ∃ n task r, last seen = Some n
         ∧ od_get n (tasks (self m)) = Some task ∧ critical task = true
         ∧ od_get n (results (self m')) = Some r ∧ status r = FAILED).
Proof.
  intros Hwk.
  destruct (topological_sort_complete (tasks (self m)))
    as (ord & Hord & Hnd & Hiff).
  unfold run. rewrite Hord. destruct (now (world m)) as [t_start w1] eqn:Hnow.
  destruct (run_loop_account ord (mkMachine (self m) w1))
    as (m2 & evs & seen & rest & ws & Hrun & -> & Htasks & Hkeep & Hevs
        & Hlen & Hfirst & Hlast & Hdone & Hcut);
    [done..|(intros; by apply Hiff)|].
  rewrite Hrun. destruct (now (world m2)) as [t_end w3] eqn:Hend.
  cbn [self world] in *.
  destruct (print_summary_count (self m2) (t_end - t_start)%Z)
    as (Hs1 & Hs2 & Hs3).
  assert (∀ e, e ∈ evs → is_summary e = false ∧ is_export e = false)
    as Hkind.
  { intros e He. apply loop_event_kind.
    destruct (Hevs e He) as [?|(n & ? & _)]; eauto. }
  eexists (seen ++ rest), (mkMachine (self m2) w3), _, seen, rest, ws,
    (world m2), evs.
  cbn [self world fst snd]. rewrite Hend. cbn [fst snd].
  split_and!; try done.
  - intros e n. unfold _export_results.
    rewrite !elem_of_app, !elem_of_cons, !elem_of_nil.
    intros [[->|[->|[]]]|[He|[He|[->|[->|[]]]]]] Hsub; try done.
    + destruct (Hevs e He) as [->|(n' & ? & ?)]; [done|congruence].
    + apply Hs3 in He. congruence.
  - by destruct m2.
  - intros i n task Hi Htask.
    destruct (Hdone i n task Hi Htask)
      as (w & w' & r & Hw & Hw' & Hr & Hacc & Hv & Hstop).
    exists w, w', r. split_and!; try done.
    apply verdict_app_l.
    { intros e. rewrite !elem_of_cons, elem_of_nil.
      by intros [->|[->|[]]]. }
    apply verdict_app_r; [|done].
    intros e. unfold _export_results.
    rewrite !elem_of_app, !elem_of_cons, !elem_of_nil.
    intros [He|[->|[->|[]]]]; [|done..]. apply Hs3 in He. congruence.
Qed.

(** On an acyclic registry with registered dependencies the dependencies
    of a considered task were considered before it, so the results a task
    meets when it is considered are the final ones. *)
Lemma results_at_final (tasks0 : odict (Task E)) ord seen rest
    (res0 res' : odict TaskResult) i T task :
  deps_registered tasks0 → acyclic tasks0 →
  _topological_sort tasks0 = Some ord → ord = seen ++ rest →
  seen !! i = Some T → od_get T tasks0 = Some task →
  (∀ d, d ∈ deps task → d ∈ take i seen)
  ∧ deps_succeeded (results_at res0 res' (take i seen)) (deps task)
    = deps_succeeded (λ d, od_get d res') (deps task).
Proof.
  intros Hreg Hacyc Hord -> Hi Htask.
  pose proof (topological_sort_respects _ Hreg Hacyc _ Hord) as Hres.
  assert (∀ d, d ∈ deps task → d ∈ take i seen) as Hearlier.
  { intros d Hd.
    destruct (Hres i T task d) as (j & Hj & Hjd); [|done..|].
    { by apply lookup_app_l_Some. }
    apply elem_of_take. exists j. split; [|done].
    apply lookup_lt_Some in Hi.
    by rewrite lookup_app_l in Hjd by lia. }
  split; [done|]. apply deps_succeeded_ext. intros d Hd.
  unfold results_at. by rewrite decide_True by by apply Hearlier.
Qed.

(** A whole run over an acyclic registry with registered dependencies:
    every considered task meets the final results of its dependencies, all
    of them considered before it. *)
Lemma run_dag_account m :
  well_keyed (tasks (self m)) →
  deps_registered (tasks (self m)) → acyclic (tasks (self m)) →
  ∃ m' evs (seen rest : list string) (ws : list E) w_end,
    _topological_sort (tasks (self m)) = Some (seen ++ rest)
    ∧ run now cfg m = Some (Returned tt, m', evs)
    ∧ (∀ n, n ∈ seen ++ rest ↔ registered (tasks (self m)) n)
    ∧ (∀ T, considered evs T ↔ T ∈ seen)
    ∧ length ws = S (length seen)
    ∧ ws !! 0 = Some (now (world m)).2
    ∧ ws !! length seen = Some w_end
    ∧ world m' = (now w_end).2
    ∧ (∀ i T, seen !! i = Some T →
         ∃ task w w' r,
           od_get T (tasks (self m)) = Some task
           ∧ ws !! i = Some w ∧ ws !! S i = Some w'
           ∧ od_get T (results (self m')) = Some r
           ∧ (∀ d, d ∈ deps task → d ∈ take i seen)
           ∧ (r, w')
             = (if deps_succeeded (λ d, od_get d (results (self m')))
                     (deps task)
                then called now task w else passed_over now T w)
           ∧ verdict evs T
               (deps_succeeded (λ d, od_get d (results (self m')))
                  (deps task)) r)
    ∧ (rest ≠ [] →
       ∃ n task r, last seen = Some n
         ∧ od_get n (tasks (self m)) = Some task ∧ critical task = true
         ∧ od_get n (results (self m')) = Some r ∧ status r = FAILED).
Proof.
  intros Hwk Hreg Hacyc.
  destruct (run_account m Hwk) as (ord & m' & evs & seen & rest & ws & w_end
    & evs_loop & Hord & Hrun & -> & Hnd & Hiff & Htasks & Hkeep & Hevs
    & _ & Hworld & _ & _ & Hlen & Hfirst & Hlast & Hdone & Hcut).
  assert (∀ i T, seen !! i = Some T →
    ∃ task w w' r,
      od_get T (tasks (self m)) = Some task
      ∧ ws !! i = Some w ∧ ws !! S i = Some w'
      ∧ od_get T (results (self m')) = Some r
      ∧ (∀ d, d ∈ deps task → d ∈ take i seen)
      ∧ (r, w')
        = (if deps_succeeded (λ d, od_get d (results (self m'))) (deps task)
           then called now task w else passed_over now T w)
      ∧ verdict evs T
          (deps_succeeded (λ d, od_get d (results (self m'))) (deps task)) r)
    as Hidx.
  { intros i T Hi.
    destruct (proj2 (od_get_is_Some (tasks (self m)) T)) as [task Htask].
    { apply Hiff, elem_of_app. left. apply list_elem_of_lookup. eauto. }
    destruct (Hdone i T task Hi Htask)
      as (w & w' & r & Hw & Hw' & Hr & Hacc & Hv & _).
    destruct (results_at_final (tasks (self m)) (seen ++ rest) seen rest
                (results (self m)) (results (self m')) i T task)
      as [Hearlier Heq]; [done..|].
    rewrite Heq in Hacc, Hv. by exists task, w, w', r. }
  exists m', evs, seen, rest, ws, w_end. split_and!; try done.
  intros T. split.
  - intros [HT|HT]; by apply (Hevs _ T) in HT.
  - intros [i Hi]%list_elem_of_lookup.
    destruct (Hidx i T Hi) as (task & w & w' & r & _ & _ & _ & _ & _ & _ & Hv).
    unfold verdict in Hv.
    destruct (deps_succeeded _ _); [left|right]; tauto.
Qed.
End engine_account.

(** ** Claims about the engine *)



(** C4. When a critical task was called and ended [FAILED], no task that
    stands later in the resolved order is called, considered or recorded
    (its entry in the results is what it was before the run); the run
    nevertheless returns normally, prints its summary once and writes its
    results file once. *)
Theorem critical_failure_halts {E : Type} (now : E → Z * E) (cfg : Config)
    (m : machine E) (T : string) (task : Task E) :
  well_keyed (tasks (self m)) →
  od_get T (tasks (self m)) = Some task → critical task = true →
  ∃ ord m' evs,
    _topological_sort (tasks (self m)) = Some ord
    ∧ run now cfg m = Some (Returned tt, m', evs)
    ∧ count_events is_summary evs = 1
    ∧ count_events is_export evs = 1
    ∧ (Invoke T ∈ evs → status_of (results (self m')) T = Some FAILED →
       ∀ U, later_in ord T U →
         invocations U evs = 0 ∧ ¬ considered evs U
         ∧ od_get U (results (self m')) = od_get U (results (self m))).
Proof.
  intros Hwk Htask Hcrit.
  destruct (run_spec now cfg m Hwk) as (ord & m' & evs & seen & rest & Hord
    & Hrun & -> & Hnd & Hiff & Htasks & Hkeep & Hevs & Hdone & Hsum & Hexp & _).
  exists (seen ++ rest), m', evs. split_and!; [done..|].
  intros Hcalled Hfailed U (i & j & Hi & Hj & Hij).
  assert (T ∈ seen) as [i0 Hi0]%list_elem_of_lookup by by eapply Hevs.
  destruct (Hdone i0 T task Hi0 Htask) as (r & Hr & _ & Hlast).
  unfold status_of in Hfailed. rewrite Hr in Hfailed.
  assert (status r = FAILED) as Hf by by simplify_eq/=.
  specialize (Hlast Hf Hcrit).
  assert (i = i0) as ->.
  { eapply NoDup_lookup; [exact Hnd|exact Hi|]. by apply lookup_app_l_Some. }
  assert (U ∉ seen) as HU.
  { intros [k Hk]%list_elem_of_lookup.
    assert (j = k); [|apply lookup_lt_Some in Hk; lia].
    eapply NoDup_lookup; [exact Hnd|exact Hj|]. by apply lookup_app_l_Some. }
  split_and!.
  - apply invocations_zero. intros HI. by apply HU, (Hevs _ U HI).
  - intros [HI|HI]; by apply HU, (Hevs _ U HI).
  - by apply Hkeep.
Qed.

Lemma critical_failure_halts_scenario :
  let m := mkMachine (scenario true) (mkWorld tt []) in
  ∃ ord m' evs,
    _topological_sort (tasks (self m)) = Some ord
    ∧ run frozen CONFIG m = Some (Returned tt, m', evs)
    ∧ count_events is_summary evs = 1
    ∧ count_events is_export evs = 1
    ∧ (Invoke "B" ∈ evs → status_of (results (self m')) "B" = Some FAILED →
       ∀ U, later_in ord "B" U →
         invocations U evs = 0 ∧ ¬ considered evs U
         ∧ od_get U (results (self m')) = od_get U (results (self m))).
Proof.
  intros m.
  eapply (critical_failure_halts frozen CONFIG m "B").
  - apply well_keyedb_spec. vm_compute. reflexivity.
  - vm_compute. reflexivity.
  - reflexivity.
Defined.

(** ** Claims about the summary *)

Lemma filter_none (p : event → bool) evs :
  (∀ e, e ∈ evs → p e = false) → List.filter p evs = [].
Proof.
  induction evs as [|e evs IH]; intros H; [done|]. simpl.
  rewrite H by set_solver. apply IH. intros. apply H. set_solver.
Qed.

Lemma print_summary_filter {E : Type} (o : Orchestrator E) dur :
  List.filter is_summary (_print_summary o dur)
  = [LogSummary dur (count_status SUCCESS (results o))
                    (count_status FAILED (results o))].
Proof.
  unfold _print_summary. simpl. f_equal. apply filter_none.
  by intros e ([n r] & -> & _)%list_elem_of_fmap.
Qed.

(** C6, as stated, fails on the end-to-end scenario ([B] critical): the run
    halts after [B], [C] gets no result, the summary line carries the two
    counters success = 1 and failed = 1, and no result is [SKIPPED]. *)
Lemma scenario_summary_no_skipped :
  ∃ m' evs,
    run frozen CONFIG (mkMachine (scenario true) (mkWorld tt []))
    = Some (Returned tt, m', evs)
    ∧ List.filter is_summary evs = [LogSummary 0 1 1]
    ∧ count_status SKIPPED (results (self m')) = 0
    ∧ status_of (results (self m')) "C" = None.
Proof. eexists _, _. split; [reflexivity|]. by vm_compute. Qed.

(** C6, amended. The summary of every run reports the number of recorded
    [SUCCESS] results, the number of recorded [FAILED] results and the total
    duration (it carries no count of [SKIPPED] results): the duration is
    the clock read when the loop over the tasks has ended minus the clock
    read before the loop starts. It then lists one line per recorded
    result with its status; every task the engine considered has such a
    line, with status [SUCCESS], [FAILED] or [SKIPPED]. In the end-to-end
    scenario, where [B] is critical, the run halts after [B]: the summary
    reports success = 1 and failed = 1, and the recorded results are
    [A] = [SUCCESS] and [B] = [FAILED]; [C] has no result. *)
Theorem summary_reports :
  (∀ (E : Type) (now : E → Z * E) (cfg : Config) (m : machine E),
     well_keyed (tasks (self m)) →
     ∃ ord m' evs w_end evs_loop,
       _topological_sort (tasks (self m)) = Some ord
       ∧ run_loop now cfg ord (mkMachine (self m) (now (world m)).2)
         = (Returned tt, mkMachine (self m') w_end, evs_loop)
       ∧ run now cfg m = Some (Returned tt, m', evs)
       ∧ world m' = (now w_end).2
       ∧ List.filter is_summary evs
         = [LogSummary ((now w_end).1 - (now (world m)).1)
              (count_status SUCCESS (results (self m')))
              (count_status FAILED (results (self m')))]
       ∧ (∀ n r, (n, r) ∈ results (self m') →
            LogSummaryLine (status r) n (duration r) (records r) ∈ evs)
       ∧ (∀ T, considered evs T →
            ∃ r, od_get T (results (self m')) = Some r
                 ∧ (status r = SUCCESS ∨ status r = FAILED
                    ∨ status r = SKIPPED)
                 ∧ LogSummaryLine (status r) T (duration r) (records r) ∈ evs))
  ∧ (∃ m' evs,
       run frozen CONFIG (mkMachine (scenario true) (mkWorld tt []))
       = Some (Returned tt, m', evs)
       ∧ List.filter is_summary evs = [LogSummary 0 1 1]
       ∧ (λ '(n, r), (n, status r, records r)) <$> results (self m')
         = [("A", SUCCESS, 2%Z); ("B", FAILED, 0%Z)]).
Proof.
  split; [|eexists _, _; split; [reflexivity|by vm_compute]].
  intros E now cfg m Hwk.
  destruct (run_account now cfg m Hwk) as (ord & m' & evs & seen & rest & ws
    & w_end & evs_loop & Hord & Hrun & -> & Hnd & Hiff & Htasks & Hkeep
    & Hevs & Hloop & Hworld & Hshape & Hkind & _ & _ & _ & Hdone & _).
  exists (seen ++ rest), m', evs, w_end, evs_loop.
  assert (∀ n r, (n, r) ∈ results (self m') →
            LogSummaryLine (status r) n (duration r) (records r) ∈ evs)
    as Hlines.
  { intros n r Hin. rewrite Hshape, !elem_of_app. right. right. left.
    unfold _print_summary. apply elem_of_cons. right.
    apply list_elem_of_fmap. by exists (n, r). }
  split_and!; try done.
  - rewrite Hshape, !List.filter_app, print_summary_filter.
    rewrite (filter_none is_summary evs_loop) by (intros; by apply Hkind).
    done.
  - intros T HT.
    assert (T ∈ seen) as [i Hi]%list_elem_of_lookup.
    { destruct HT as [HT|HT]; by apply (Hevs _ T) in HT. }
    destruct (proj2 (od_get_is_Some (tasks (self m)) T)) as [task Htask].
    { apply Hiff, elem_of_app. left. apply list_elem_of_lookup. eauto. }
    destruct (Hdone i T task Hi Htask)
      as (w & w' & r & _ & _ & Hr & _ & Hv & _).
    exists r. split_and!; [done| |by apply Hlines, od_get_Some_elem].
    unfold verdict in Hv. destruct (deps_succeeded _ _); tauto.
Qed.

Lemma summary_reports_scenario :
  let m := mkMachine (scenario true) (mkWorld tt []) in
  ∃ ord m' evs w_end evs_loop,
    _topological_sort (tasks (self m)) = Some ord
    ∧ run_loop frozen CONFIG ord (mkMachine (self m) (frozen (world m)).2)
      = (Returned tt, mkMachine (self m') w_end, evs_loop)
    ∧ run frozen CONFIG m = Some (Returned tt, m', evs)
    ∧ world m' = (frozen w_end).2
    ∧ List.filter is_summary evs
      = [LogSummary ((frozen w_end).1 - (frozen (world m)).1)
           (count_status SUCCESS (results (self m')))
           (count_status FAILED (results (self m')))]
    ∧ (∀ n r, (n, r) ∈ results (self m') →
         LogSummaryLine (status r) n (duration r) (records r) ∈ evs)
    ∧ (∀ T, considered evs T →
         ∃ r, od_get T (results (self m')) = Some r
              ∧ (status r = SUCCESS ∨ status r = FAILED ∨ status r = SKIPPED)
              ∧ LogSummaryLine (status r) T (duration r) (records r) ∈ evs).
Proof.
  intros m. apply (proj1 summary_reports _ frozen CONFIG m).
  apply well_keyedb_spec. vm_compute. reflexivity.
Defined.

(** ** Claims about registration *)

(** C7, as stated, fails: registering [A] a second time is accepted and
    replaces the first definition, in place. *)
Lemma duplicate_add_accepted :
  tasks duplicate_pipeline
  = [("A", new_Task "A" (returns 2) (Some ["B"]) false);
     ("B", new_Task "B" (returns 0) None true)].
Proof. reflexivity. Qed.

(** C7, amended. Registering a task under a name that already exists does
    not fail: the new definition replaces the old one at the same place in
    registration order and every other task is untouched; registration
    records nothing and calls no operation. *)
Theorem add_existing_replaces {E : Type} (o : Orchestrator E) n f d c :
  registered (tasks o) n →
  od_keys (tasks (add n f d c o)) = od_keys (tasks o)
  ∧ od_get n (tasks (add n f d c o)) = Some (new_Task n f d c)
  ∧ (∀ k, k ≠ n → od_get k (tasks (add n f d c o)) = od_get k (tasks o))
  ∧ results (add n f d c o) = results o.
Proof.
  intros Hn. simpl. split_and!; [by apply od_keys_set_in| | |done].
  - by rewrite od_get_set, decide_True.
  - intros k Hk. by rewrite od_get_set, decide_False.
Qed.

Lemma add_existing_replaces_A :
  let o := add "B" (returns 0) None true
             (add "A" (returns (E:=unit) 1) None true
                (new_Orchestrator "duplicate" "r0")) in
  od_keys (tasks (add "A" (returns 2) (Some ["B"]) false o)) = od_keys (tasks o)
  ∧ od_get "A" (tasks (add "A" (returns 2) (Some ["B"]) false o))
    = Some (new_Task "A" (returns 2) (Some ["B"]) false)
  ∧ (∀ k, k ≠ "A" →
       od_get k (tasks (add "A" (returns 2) (Some ["B"]) false o))
       = od_get k (tasks o))
  ∧ results (add "A" (returns 2) (Some ["B"]) false o) = results o.
Proof.
  intros o. apply (add_existing_replaces o).
  unfold registered. vm_compute. set_solver.
Defined.




(** ** Claims about the retry policy *)

Section retry_facts.
Context {X : Type} (cfg : Config) (func : X → outcome pyvalue * X)
  (max_retries : Z).

Lemma sleeps_app a b : sleeps (a ++ b) = sleeps a ++ sleeps b.
Proof. apply omap_app. Qed.

Lemma attempts_made_app a b :
  attempts_made (a ++ b) = attempts_made a + attempts_made b.
Proof. unfold attempts_made. by rewrite omap_app, length_app. Qed.

(** The loop, entered at iteration [attempt] with exactly the iterations
    up to [max_retries] left: it sleeps [k] times, after the failed
    attempts [attempt], ..., [attempt + k - 1], and calls the function
    [k + 1] times; it raises only in the last iteration. *)
Lemma attempts_spec : ∀ todo attempt (w : World X),
  (Z.of_nat attempt + Z.of_nat todo = max_retries + 1)%Z → 0 < todo →
  ∃ k res w',
    attempts cfg func max_retries todo attempt w = (res, w')
    ∧ k < todo
    ∧ sleeps (effects w')
      = sleeps (effects w) ++ (retry_delay cfg <$> seq attempt k)
    ∧ attempts_made (effects w') = attempts_made (effects w) + S k
    ∧ ((∀ x, ∃ e x', func x = (Raised e, x')) →
       (∃ e, res = Raised e) ∧ S k = todo).
Proof.
  induction todo as [|todo IH]; intros attempt w Hsum Hpos; [lia|].
  simpl. destruct (func (ext w)) as [[v|e] x] eqn:Hcall.
  - exists 0, (Returned v), (mkWorld x (effects w ++ [Attempt attempt])).
    split_and!; [done|lia|..]; simpl.
    + by rewrite sleeps_app, !app_nil_r.
    + rewrite attempts_made_app. done.
    + intros Hfail. destruct (Hfail (ext w)) as (? & ? & ?). congruence.
  - destruct (Z.geb_spec (Z.of_nat attempt) max_retries) as [Hge|Hlt].
    + exists 0, (Raised e), (mkWorld x (effects w ++ [Attempt attempt])).
      split_and!; [done|lia|..]; simpl.
      * by rewrite sleeps_app, !app_nil_r.
      * rewrite attempts_made_app. done.
      * intros _. split; [by eexists|lia].
    + destruct (IH (S attempt)
        (mkWorld x ((effects w ++ [Attempt attempt])
           ++ [Warn (Z.of_nat attempt + 1) max_retries
                 (retry_delay cfg attempt) (exn_msg e);
               Sleep (retry_delay cfg attempt)])))
        as (k & res & w' & Hrun & Hk & Hsl & Hat & Hall); [lia..|].
      exists (S k), res, w'. split_and!; [done|lia|..].
      * rewrite Hsl. simpl. rewrite !sleeps_app. simpl.
        by rewrite app_nil_r, <- app_assoc.
      * rewrite Hat. simpl. rewrite !attempts_made_app.
        change (attempts_made [Attempt attempt]) with 1.
        change (attempts_made [Warn _ _ _ _; Sleep _]) with 0. lia.
      * intros Hfail. destruct (Hall Hfail) as [? ?]. split; [done|lia].
Qed.
End retry_facts.

(** C5. The wrapper sleeps only after failed attempts, and the delay after
    failed attempt number [attempt] (from 0) is
    [RETRY_DELAY * RETRY_BACKOFF ^ attempt], whatever the wrapped function
    does: after [k] sleeps the function has been called [k + 1] times. A
    function that always raises is called [max_retries + 1] times and its
    last exception is re-raised. With the module's [CONFIG] (delay 2,
    backoff 2.0, 3 retries) the delays between the four attempts are
    2, 4, 8. *)
Theorem retry_delays {X : Type} (cfg : Config) (max_retries : Z)
    (func : X → outcome pyvalue * X) (w : World X) :
  (0 ≤ max_retries)%Z →
  ∃ k res w',
    retry_with_backoff cfg max_retries func w = (res, w')
    ∧ (Z.of_nat k ≤ max_retries)%Z
    ∧ sleeps (effects w')
      = sleeps (effects w)
        ++ ((λ attempt,
               (RETRY_DELAY cfg * RETRY_BACKOFF cfg ^ Z.of_nat attempt)%Q)
              <$> seq 0 k)
    ∧ attempts_made (effects w') = attempts_made (effects w) + S k
    ∧ ((∀ x, ∃ e x', func x = (Raised e, x')) →
       (∃ e, res = Raised e) ∧ Z.of_nat k = max_retries
       ∧ (cfg = CONFIG → max_retries = 3%Z →
          sleeps (effects w') = sleeps (effects w) ++ [2%Q; 4%Q; 8%Q]
          ∧ attempts_made (effects w') = attempts_made (effects w) + 4)).
Proof.
  intros Hmax. unfold retry_with_backoff.
  destruct (attempts_spec cfg func max_retries
              (Z.to_nat (max_retries + 1)) 0 w)
    as (k & res & w' & Hrun & Hk & Hsl & Hat & Hall); [lia..|].
  exists k, res, w'. split_and!; [done|lia|done..|].
  intros Hfail. destruct (Hall Hfail) as [Hres Hlast].
  split_and!; [done|lia|]. intros -> ->.
  assert (k = 3) as -> by (change (Z.to_nat (3 + 1)) with 4 in Hlast; lia).
  split; [|done]. rewrite Hsl. reflexivity.
Qed.

Lemma retry_delays_always_failing :
  let func := raises (E:=unit) (Exn "RuntimeError" "down") in
  let w := mkWorld tt [] in
  ∃ k res w',
    retry_with_backoff CONFIG 3 func w = (res, w')
    ∧ (Z.of_nat k ≤ 3)%Z
    ∧ sleeps (effects w')
      = sleeps (effects w)
        ++ ((λ attempt,
               (RETRY_DELAY CONFIG * RETRY_BACKOFF CONFIG ^ Z.of_nat attempt)%Q)
              <$> seq 0 k)
    ∧ attempts_made (effects w') = attempts_made (effects w) + S k
    ∧ ((∀ x, ∃ e x', func x = (Raised e, x')) →
       (∃ e, res = Raised e) ∧ Z.of_nat k = 3%Z
       ∧ (CONFIG = CONFIG → 3%Z = 3%Z →
          sleeps (effects w') = sleeps (effects w) ++ [2%Q; 4%Q; 8%Q]
          ∧ attempts_made (effects w') = attempts_made (effects w) + 4)).
Proof. intros func w. apply (retry_delays CONFIG 3 func w). lia. Defined.

(** ** The retry wrapper, one call against many *)

Section retry_more.
Context {X : Type} (cfg : Config) (func : X → outcome pyvalue * X)
  (max_retries : Z).

(** When the loop raises, it has used every iteration it had. *)
Lemma attempts_raised : ∀ todo attempt (w w' : World X) e,
  (Z.of_nat attempt + Z.of_nat todo = max_retries + 1)%Z →
  attempts cfg func max_retries todo attempt w = (Raised e, w') →
  sleeps (effects w')
  = sleeps (effects w) ++ (retry_delay cfg <$> seq attempt (todo - 1))
  ∧ attempts_made (effects w') = attempts_made (effects w) + todo.
Proof.
  induction todo as [|todo IH]; intros attempt w w' e Hsum Hrun; [done|].
  cbn [attempts] in Hrun.
  destruct (func (ext w)) as [[v|e0] x] eqn:Hcall; [done|].
  destruct (Z.geb_spec (Z.of_nat attempt) max_retries) as [Hge|Hlt].
  - assert (todo = 0) as -> by lia. simplify_eq. cbn [effects].
    rewrite sleeps_app, attempts_made_app. cbn.
    rewrite !app_nil_r. done.
  - apply IH in Hrun as [Hsl Hat]; [|lia]. cbn [effects] in Hsl, Hat.
    destruct todo as [|todo]; [lia|].
    split.
    + rewrite Hsl, !sleeps_app. cbn.
      rewrite Nat.sub_0_r, app_nil_r, <- app_assoc. done.
    + rewrite Hat, !attempts_made_app.
      change (attempts_made [Attempt attempt]) with 1.
      change (attempts_made [Warn _ _ _ _; Sleep _]) with 0. lia.
Qed.

(** A success of the first call is handed through at once. *)
Lemma retry_first_success (w : World X) v x :
  (0 ≤ max_retries)%Z → func (ext w) = (Returned v, x) →
  retry_with_backoff cfg max_retries func w
  = (Returned v, mkWorld x (effects w ++ [Attempt 0])).
Proof.
  intros Hmax Hcall. unfold retry_with_backoff.
  destruct (Z.to_nat (max_retries + 1)) eqn:Hn; [lia|].
  cbn [attempts]. by rewrite Hcall.
Qed.

End retry_more.

Section retry_agree.
Context {X : Type} (cfg : Config) (func : X → outcome pyvalue * X)
  (max_retries : Z).

(** A call that raises and leaves the state as it was raises again at
    every further attempt, so the loop ends with that exception. *)
Lemma attempts_stuck : ∀ todo attempt (w : World X) e,
  (Z.of_nat attempt + Z.of_nat todo = max_retries + 1)%Z → 0 < todo →
  func (ext w) = (Raised e, ext w) →
  ∃ effs,
    attempts cfg func max_retries todo attempt w
    = (Raised e, mkWorld (ext w) effs).
Proof.
  induction todo as [|todo IH]; intros attempt w e Hsum Hpos Hcall; [lia|].
  cbn [attempts]. rewrite Hcall.
  destruct (Z.geb_spec (Z.of_nat attempt) max_retries) as [Hge|Hlt].
  - by eexists.
  - destruct (IH (S attempt)
        (mkWorld (ext w) ((effects w ++ [Attempt attempt])
           ++ [Warn (Z.of_nat attempt + 1) max_retries
                 (retry_delay cfg attempt) (exn_msg e);
               Sleep (retry_delay cfg attempt)])) e)
      as [effs Hrun]; [lia..|done|].
    cbn [ext] in Hrun. rewrite Hrun. by eexists.
Qed.

(** For a function whose failing call fails again, in the same way, when it
    is repeated from the state it left, the wrapper's outcome and final
    state are those of one call. *)
Lemma retry_agree (w : World X) :
  (0 ≤ max_retries)%Z →
  (∀ x e x', func x = (Raised e, x') → func x' = (Raised e, x')) →
  ∃ effs,
    retry_with_backoff cfg max_retries func w
    = ((func (ext w)).1, mkWorld (func (ext w)).2 effs)
    ∧ ((∃ v, (func (ext w)).1 = Returned v) →
       effs = effects w ++ [Attempt 0]).
Proof.
  intros Hmax Hstable.
  destruct (func (ext w)) as [[v|e] x] eqn:Hcall.
  - exists (effects w ++ [Attempt 0]). split; [|done].
    by apply retry_first_success.
  - unfold retry_with_backoff.
    destruct (Z.to_nat (max_retries + 1)) as [|todo] eqn:Hn; [lia|].
    cbn [attempts]. rewrite Hcall.
    destruct (Z.geb_spec (Z.of_nat 0) max_retries) as [Hge|Hlt].
    + eexists. split; [done|]. by intros [v ?].
    + match goal with
      | |- context [attempts _ _ _ todo 1 ?w0] =>
          destruct (attempts_stuck todo 1 w0 e) as [effs Hrun];
            [lia|lia|cbn [ext]; by eapply Hstable|]
      end.
      rewrite Hrun. eexists. split; [done|]. by intros [v ?].
Qed.

(** The same for a function that leaves the state alone when it raises. *)
Lemma retry_agree_keep (w : World X) :
  (0 ≤ max_retries)%Z →
  (∀ x e x', func x = (Raised e, x') → x' = x) →
  ∃ effs,
    retry_with_backoff cfg max_retries func w
    = ((func (ext w)).1, mkWorld (func (ext w)).2 effs)
    ∧ ((∃ v, (func (ext w)).1 = Returned v) →
       effs = effects w ++ [Attempt 0]).
Proof.
  intros Hmax Hkeep. apply retry_agree; [done|].
  intros x e x' Hcall. by rewrite (Hkeep _ _ _ Hcall) in Hcall |- *.
Qed.
End retry_agree.

(** ** Claims about the staged-validation pattern *)

Section staged_facts.
Context {Raw Fields : Type}.
Context (store_row : string → Raw → option Fields)
  (surplus : Raw → option string)
  (infile_row : string → Raw → Fields) (local_infile : bool)
  (convert : string → Fields → Fields)
  (admits : string → list Fields → list Fields → bool).
Implicit Types (s : Store Raw Fields) (w : World (Store Raw Fields)).

(** When the body raises, the store is as before, or it is as before with
    the staging table emptied by the [TRUNCATE]. *)
Lemma load_to_staging_body_raise t f clock s e s' :
  load_to_staging_body store_row surplus t f clock s = (Raised e, s') →
  s' = s
  ∨ ∃ row rows msg,
      files s !! f = Some (row :: rows) ∧ is_Some (staging s !! stg t)
      ∧ surplus row = Some msg ∧ e = Exn "TypeError" msg
      ∧ s' = set_staging (stg t) [] s.
Proof.
  unfold load_to_staging_body.
  destruct (files s !! f) as [[|row rows]|]; [congruence| |left; congruence].
  destruct (staging s !! stg t) eqn:Hstg; [|left; congruence].
  destruct (surplus row) as [msg|] eqn:Hsur; [|congruence].
  intros [= <- <-]. right. by eexists _, _, _.
Qed.

(** A call that raises raises again, with the same exception and the same
    store, when it is repeated. *)
Lemma load_to_staging_body_stable t f clock s e s' :
  load_to_staging_body store_row surplus t f clock s = (Raised e, s') →
  load_to_staging_body store_row surplus t f clock s' = (Raised e, s').
Proof.
  intros Hrun.
  destruct (load_to_staging_body_raise _ _ _ _ _ _ Hrun)
    as [->|(row & rows & msg & Hf & _ & Hsur & -> & ->)]; [done|].
  unfold load_to_staging_body, set_staging. cbn [files staging].
  rewrite Hf, lookup_insert_eq, Hsur. cbn [files staging production audit].
  by rewrite insert_insert_eq.
Qed.





(** The M4 promote phase only adds rows selected by
    [WHERE is_valid = TRUE] to the production table of a validated
    table. *)
Lemma m4_promotes_only_valid t rid s :
  validated t = true →
  ∃ promoted,
    production (m4_load_to_production convert admits t rid s).2 !! t
    = (λ prod, prod ++ ((λ r, convert t (fields r)) <$> promoted))
        <$> production s !! t
    ∧ ∀ r, r ∈ promoted →
        is_valid r = Some true
        ∧ ∃ rows, staging s !! stg t = Some rows ∧ r ∈ rows.
Proof.
  intros Hval. unfold m4_load_to_production. rewrite Hval. simpl.
  assert (∀ (prod : option (list Fields)),
            prod = (λ p, p ++ ((λ r, convert t (fields r)) <$> [])) <$> prod)
    as Hsame.
  { intros [p|]; simpl; [by rewrite app_nil_r|done]. }
  destruct (staging s !! stg t) as [rows|] eqn:Hrows; simpl.
  2:{ exists []. split; [apply Hsame|]. intros r Hr. by apply elem_of_nil in Hr. }
  case_decide as Hlen.
  { exists []. split; [apply Hsame|]. intros r Hr. by apply elem_of_nil in Hr. }
  destruct (production s !! t) as [prod|] eqn:Hprod; simpl.
  2:{ exists []. split; [by rewrite Hprod|].
      intros r Hr. by apply elem_of_nil in Hr. }
  destruct (admits t prod _) eqn:Hadm; simpl.
  - exists (valid_rows rows). rewrite lookup_insert_eq, ?Hprod.
    split; [done|].
    intros r [Hr Hin]%list_elem_of_filter. eauto.
  - exists []. rewrite ?Hprod. simpl. rewrite app_nil_r. split; [done|].
    intros r Hr. by apply elem_of_nil in Hr.
Qed.
End staged_facts.

(** The orchestrator's promote phase copies every staging row, whatever its
    validity flag. *)
Lemma load_to_production_promotes_all {Raw Fields : Type}
    (convert : string → Fields → Fields)
    (admits : string → list Fields → list Fields → bool)
    t (s : Store Raw Fields) rows prod :
  staging s !! stg t = Some rows → production s !! t = Some prod →
  admits t prod ((λ r, convert t (fields r)) <$> rows) = true →
  production (load_to_production_body convert admits t s).2 !! t
  = Some (prod ++ ((λ r, convert t (fields r)) <$> rows)).
Proof.
  intros Hrows Hprod Hadm. unfold load_to_production_body.
  rewrite Hrows, Hprod, Hadm. simpl. apply lookup_insert_eq.
Qed.

(** C9: the orchestrator's promote phase breaks the invariant. After the
    orchestrator's own stage and transform phases the one staged customer
    has [is_valid = FALSE] (the column default; nothing in the file ever
    sets it), and [load_to_production] copies it into [customers]. The M4
    loader keeps the invariant ([m4_promotes_only_valid]). *)
Theorem orchestrator_promotes_invalid :
  let w1 := (stage_customers one_customer).2 in
  let w2 := (transform_customers w1).2 in
  let w3 := (load_customers w2).2 in
  staging (ext w2) !! "stg_customers"
  = Some [mkStaged 7%Z (Some 0%Z) (Some false) None]
  ∧ production (ext w3) !! "customers" = Some [7%Z].
Proof. by vm_compute. Qed.

(** The wrapper around the stage phase ends with the outcome and the store
    of one call of its body. *)
Lemma load_to_staging_agree {Raw Fields : Type}
    (store_row : string → Raw → option Fields)
    (surplus : Raw → option string) t csv clock
    (w : World (Store Raw Fields)) :
  ∃ effs,
    load_to_staging store_row surplus t csv clock w
    = ((load_to_staging_body store_row surplus t csv clock (ext w)).1,
       mkWorld (load_to_staging_body store_row surplus t csv clock (ext w)).2
         effs)
    ∧ ((∃ v, (load_to_staging_body store_row surplus t csv clock (ext w)).1
             = Returned v) → effs = effects w ++ [Attempt 0]).
Proof.
  apply retry_agree; [done|]. intros x e x'.
  apply load_to_staging_body_stable.
Qed.




(** * Further properties *)

(** ** The resolver on any registry *)

(** X1. For every registry, cyclic or with unknown dependency names, the
    resolver terminates and returns every registered name exactly once and
    nothing else: a dependency name that was never registered does not
    appear in the order. *)
Theorem resolver_lists_registered {E : Type} (tasks : odict (Task E)) :
  ∃ ord, _topological_sort tasks = Some ord
         ∧ NoDup ord
         ∧ (∀ n, n ∈ ord ↔ registered tasks n)
         ∧ (∀ a d, edge tasks a d → ¬ registered tasks d → d ∉ ord).
Proof.
  destruct (topological_sort_complete tasks) as (ord & Hord & Hnd & Hiff).
  exists ord. split_and!; [done..|]. intros a d _ Hd Hin. by apply Hd, Hiff.
Qed.

Section registration_order.
Context {E : Type}.

Lemma od_get_app_r (pre rest : odict (Task E)) k :
  k ∉ od_keys pre → od_get k (pre ++ rest) = od_get k rest.
Proof.
  induction pre as [|[k' t'] pre IH]; simpl; [done|].
  intros Hk. case_decide; [set_solver|]. apply IH. set_solver.
Qed.

Lemma visit_S (tasks : odict (Task E)) fuel n st :
  visit tasks (S fuel) n st
  = if decide (n ∈ visited st) then Some st
    else match od_get n tasks with
         | None => Some (mkSort ({[n]} ∪ visited st) (order st))
         | Some task =>
             match for_each (visit tasks fuel) (deps task)
                     (mkSort ({[n]} ∪ visited st) (order st)) with
             | Some st2 => Some (mkSort (visited st2) (order st2 ++ [n]))
             | None => None
             end
         end.
Proof. done. Qed.

Lemma for_each_cons {S : Type} (body : string → S → option S) x xs s :
  for_each body (x :: xs) s
  = match body x s with Some s' => for_each body xs s' | None => None end.
Proof. done. Qed.

Lemma od_get_head (k : string) (t : Task E) rest :
  od_get k ((k, t) :: rest) = Some t.
Proof. simpl. by rewrite decide_True. Qed.

Lemma for_each_visited (tasks : odict (Task E)) fuel ds st :
  (∀ d, d ∈ ds → d ∈ visited st) →
  for_each (visit tasks (S fuel)) ds st = Some st.
Proof.
  induction ds as [|d ds IH]; intros Hds; [done|].
  rewrite for_each_cons, visit_S, decide_True by set_solver.
  apply IH. set_solver.
Qed.

Lemma visit_in_order fuel : ∀ (rest pre : odict (Task E)),
  registered_before (od_keys pre) rest = true →
  for_each (visit (pre ++ rest) (S (S fuel))) (od_keys rest)
    (mkSort (list_to_set (od_keys pre)) (od_keys pre))
  = Some (mkSort (list_to_set (od_keys (pre ++ rest)))
            (od_keys (pre ++ rest))).
Proof.
  induction rest as [|[k t] rest IH]; intros pre Hreg.
  { by rewrite app_nil_r. }
  simpl in Hreg.
  apply andb_true_iff in Hreg as [[Hdeps Hk]%andb_true_iff Hrest].
  apply bool_decide_eq_true in Hk. rewrite forallb_forall in Hdeps.
  change (od_keys ((k, t) :: rest)) with (k :: od_keys rest).
  rewrite for_each_cons, visit_S. cbn [visited order].
  rewrite decide_False by (rewrite elem_of_list_to_set; exact Hk).
  rewrite od_get_app_r, od_get_head by done.
  rewrite for_each_visited.
  2:{ intros d Hd. cbn [visited]. apply elem_of_union. right.
      apply elem_of_list_to_set.
      apply list_elem_of_In, Hdeps, bool_decide_eq_true in Hd. exact Hd. }
  cbn [visited order].
  specialize (IH (pre ++ [(k, t)])).
  unfold od_keys in IH. rewrite fmap_app in IH.
  change ([(k, t)].*1) with [k] in IH.
  rewrite <- app_assoc in IH. change ([(k, t)] ++ rest) with ((k, t) :: rest) in IH.
  replace ({[k]} ∪ list_to_set (od_keys pre) : gset string)
    with (list_to_set (pre.*1 ++ [k]) : gset string)
    by (unfold od_keys; set_solver).
  by apply IH.
Qed.
End registration_order.

(** X2. When every task lists only names registered before it (and no
    name is registered twice), the resolved execution order is the
    registration order itself. *)
Theorem registration_order_kept {E : Type} (tasks : odict (Task E)) :
  registered_before [] tasks = true →
  _topological_sort tasks = Some (od_keys tasks).
Proof.
  intros Hreg. unfold _topological_sort, sort_fuel.
  destruct tasks as [|[k t] rest] eqn:Heq; [done|]. rewrite <- Heq in *.
  assert (∃ fuel, length (mentioned tasks) = S fuel) as [fuel ->].
  { rewrite Heq. unfold mentioned. simpl. eauto. }
  pose proof (visit_in_order fuel tasks [] Hreg) as Hrun.
  change ([] ++ tasks) with tasks in Hrun.
  change (list_to_set (od_keys [])) with (∅ : gset string) in Hrun.
  change (od_keys (@nil (string * Task E))) with (@nil string) in Hrun.
  by rewrite Hrun.
Qed.

Lemma registration_order_kept_main :
  let reg := tasks (main_pipeline (λ _, returns (E:=unit) 0) "r0") in
  _topological_sort reg = Some (od_keys reg).
Proof.
  intros reg. apply (registration_order_kept reg). vm_compute. reflexivity.
Defined.

(** ** More on the engine *)

Ltac split5 := split; [|split; [|split; [|split]]].

Section engine_trace.
Context {E : Type} (now : E → Z * E) (cfg : Config).
Implicit Types (m : machine E) (evs : list event) (n : string).

(** The loop body once more, with the shape of the stored result and what
    a [FAILED] status and a [break] tell. *)
Lemma loop_body_result n m (task : Task E) :
  od_get n (tasks (self m)) = Some task → name task = n →
  ∃ r brk w' evs,
    loop_body now cfg n m
    = (Returned brk, mkMachine (set_result n r (self m)) w', evs)
    ∧ result_shape n r
    ∧ (status r = FAILED → ∃ w e w2, func task w = (Raised e, w2))
    ∧ considered evs n
    ∧ (∀ e, e ∈ evs → e = LogCriticalStop ∨ subject e = Some n)
    ∧ (if brk
       then LogCriticalStop ∈ evs ∧ status r = FAILED ∧ critical task = true
       else LogCriticalStop ∉ evs).
Proof.
  intros Hget Hname. unfold loop_body, _execute_task. rewrite Hget, Hname.
  destruct (_can_run (self m) task).
  - destruct (now (world m)) as [t0 w1].
    destruct (func task w1) as [[output|e] w2] eqn:Hcall;
      destruct (now w2) as [t1 w3]; cbn [status bool_decide andb].
    + rewrite bool_decide_eq_false_2 by done. cbn [andb].
      eexists _, false, _, _. split; [done|].
      split5; [by repeat split; eauto|done|left; set_solver| |set_solver].
      intros e. rewrite !elem_of_cons, elem_of_nil.
      intros [->|[->|[->|[]]]]; by right.
    + rewrite bool_decide_eq_true_2 by done. cbn [andb].
      assert (∀ e0, e0 ∈ [LogRunning n; Invoke n; LogFailed n (exn_msg e)]
                ++ (if ALERT_ON_FAILURE cfg then [LogAlert n] else []) →
                subject e0 = Some n ∧ e0 ≠ LogCriticalStop) as Hevs.
      { intros e0 [He0|He0]%elem_of_app.
        - rewrite !elem_of_cons, elem_of_nil in He0.
          by destruct He0 as [->|[->|[->|[]]]].
        - destruct (ALERT_ON_FAILURE cfg); [|by apply elem_of_nil in He0].
          by apply list_elem_of_singleton in He0 as ->. }
      destruct (critical task).
      * eexists _, true, _, _. split; [done|].
        split5; [by repeat split; eauto|by eauto|left; set_solver| |].
        -- intros e0 [He0| ->%list_elem_of_singleton]%elem_of_app;
             [right; by apply Hevs|by left].
        -- split_and!; [set_solver|done..].
      * eexists _, false, _, _. split; [done|].
        split5; [by repeat split; eauto|by eauto|left; set_solver| |].
        -- intros e0 He0. right. by apply Hevs.
        -- intros He0. by apply Hevs in He0 as [_ ?].
  - destruct (now (world m)) as [t0 w1]. destruct (now w1) as [t1 w2].
    eexists _, false, _, _. split; [done|].
    split5; [by repeat split; eauto|done|right; set_solver| |set_solver].
    intros e ->%list_elem_of_singleton. by right.
Qed.

(** The loop over a duplicate-free list of registered names, once more:
    the tasks [seen], the shape of what is stored for them, the order of
    the keys of the results, and why the loop can stop early. *)
Lemma run_loop_trace ord : ∀ m,
  well_keyed (tasks (self m)) → NoDup ord →
  (∀ n, n ∈ ord → registered (tasks (self m)) n) →
  ∃ m' evs (seen rest : list string),
    run_loop now cfg ord m = (Returned tt, m', evs)
    ∧ ord = seen ++ rest
    ∧ tasks (self m') = tasks (self m)
    ∧ (∀ n, n ∈ seen → considered evs n)
    ∧ (∀ e, e ∈ evs →
         e = LogCriticalStop ∨ ∃ n, subject e = Some n ∧ n ∈ seen)
    ∧ (∀ n, n ∉ seen →
         od_get n (results (self m')) = od_get n (results (self m)))
    ∧ (∀ n, n ∈ seen →
         ∃ task r, od_get n (tasks (self m)) = Some task
           ∧ od_get n (results (self m')) = Some r
           ∧ result_shape n r
           ∧ (status r = FAILED → ∃ w e w2, func task w = (Raised e, w2)))
    ∧ (LogCriticalStop ∈ evs →
         ∃ T task w e w2, od_get T (tasks (self m)) = Some task
           ∧ critical task = true ∧ func task w = (Raised e, w2))
    ∧ (LogCriticalStop ∉ evs → rest = [])
    ∧ ((∀ n, n ∈ ord → n ∉ od_keys (results (self m))) →
       od_keys (results (self m')) = od_keys (results (self m)) ++ seen).
Proof.
  induction ord as [|T ord IH]; intros m Hwk Hnd Hreg.
  { exists m, [], [], []. split_and!; try done;
      try (by intros ? ?%elem_of_nil); try (by intros ?%elem_of_nil).
    intros _. by rewrite app_nil_r. }
  apply NoDup_cons in Hnd as [HT Hnd].
  destruct (proj2 (od_get_is_Some (tasks (self m)) T)) as [task Htask];
    [apply Hreg; set_solver|].
  destruct (loop_body_result T m task Htask (Hwk _ _ Htask))
    as (r & brk & w1 & evs1 & Hbody & Hshape & Hfail & Hcons & Hsub & Hbrk).
  cbn [run_loop]. rewrite Hbody. destruct brk.
  - destruct Hbrk as (Hstop & Hf & Hc).
    eexists _, evs1, [T], ord. split_and!; try done.
    + by intros n ->%list_elem_of_singleton.
    + intros e [->|He]%Hsub; [by left|right]. exists T. set_solver.
    + intros n Hn. cbn. rewrite od_get_set. case_decide; set_solver.
    + intros n ->%list_elem_of_singleton. exists task, r.
      split_and!; [done| |done..]. cbn. by rewrite od_get_set, decide_True.
    + intros _. destruct (Hfail Hf) as (w & e & w2 & Hraise).
      by exists T, task, w, e, w2.
    + intros Hfresh. cbn [self results set_result].
      apply od_keys_set_notin, Hfresh. set_solver.
  - set (m1 := mkMachine (set_result T r (self m)) w1) in *.
    destruct (IH m1) as (m' & evs' & seen & rest & Hrun & -> & Htasks
      & Hseen & Hevs & Hkeep & Hrec & Hhalt & Hall & Hkeys); [done..| |].
    { intros n Hn. apply Hreg. set_solver. }
    rewrite Hrun. cbn in Htasks.
    assert (T ∉ seen) as HT' by set_solver.
    exists m', (evs1 ++ evs'), (T :: seen), rest.
    split_and!; try done.
    + intros n [->|Hn]%elem_of_cons.
      * destruct Hcons; [left|right]; set_solver.
      * destruct (Hseen n Hn); [left|right]; set_solver.
    + intros e [[->|He]%Hsub|[->|(n & ? & ?)]%Hevs]%elem_of_app;
        [by left|right|by left|right].
      * exists T. set_solver.
      * exists n. set_solver.
    + intros n Hn. rewrite Hkeep by set_solver. cbn.
      rewrite od_get_set. case_decide; set_solver.
    + intros n [->|Hn]%elem_of_cons.
      * exists task, r. split_and!; [done| |done..].
        rewrite Hkeep by done. cbn. by rewrite od_get_set, decide_True.
      * by apply Hrec.
    + intros [He|He]%elem_of_app; [done|by apply Hhalt].
    + intros He. apply Hall. set_solver.
    + intros Hfresh. rewrite Hkeys.
      * unfold m1. cbn [self results set_result].
        rewrite od_keys_set_notin by (apply Hfresh; set_solver).
        by rewrite <- app_assoc.
      * intros n Hn. unfold m1. cbn [self results set_result].
        rewrite od_keys_set_notin by (apply Hfresh; set_solver).
        intros [?| ->%list_elem_of_singleton]%elem_of_app; [|set_solver].
        by apply (Hfresh n); [set_solver|].
Qed.

(** The same for a whole run. *)
Lemma run_trace m :
  well_keyed (tasks (self m)) →
  ∃ ord m' evs (seen rest : list string),
    _topological_sort (tasks (self m)) = Some ord
    ∧ run now cfg m = Some (Returned tt, m', evs)
    ∧ ord = seen ++ rest
    ∧ NoDup ord
    ∧ (∀ n, n ∈ ord ↔ registered (tasks (self m)) n)
    ∧ (∀ n, n ∈ seen ↔ considered evs n)
    ∧ (∀ n, n ∉ seen →
         od_get n (results (self m')) = od_get n (results (self m)))
    ∧ (∀ n, n ∈ seen →
         ∃ task r, od_get n (tasks (self m)) = Some task
           ∧ od_get n (results (self m')) = Some r
           ∧ result_shape n r
           ∧ (status r = FAILED → ∃ w e w2, func task w = (Raised e, w2)))
    ∧ ((∀ T task, od_get T (tasks (self m)) = Some task →
          critical task = true → ∀ w, ∃ v w2, func task w = (Returned v, w2)) →
       rest = [])
    ∧ ((∀ n, n ∈ ord → n ∉ od_keys (results (self m))) →
       od_keys (results (self m')) = od_keys (results (self m)) ++ seen).
Proof.
  intros Hwk.
  destruct (topological_sort_complete (tasks (self m)))
    as (ord & Hord & Hnd & Hiff).
  unfold run. rewrite Hord. destruct (now (world m)) as [t_start w1].
  destruct (run_loop_trace ord (mkMachine (self m) w1))
    as (m2 & evs & seen & rest & Hrun & -> & Htasks & Hseen & Hevs & Hkeep
        & Hrec & Hhalt & Hall & Hkeys); [done..|(intros; by apply Hiff)|].
  rewrite Hrun. destruct (now (world m2)) as [t_end w3].
  cbn [self world] in *.
  destruct (print_summary_count (self m2) (t_end - t_start)%Z)
    as (_ & _ & Hs3).
  eexists _, _, _, seen, rest. split_and!; try done.
  - intros n. split.
    + intros Hn. destruct (Hseen n Hn); [left|right]; set_solver.
    + assert (∀ e, subject e = Some n →
                e ∈ [LogPipeline (o_name (self m)) (run_id (self m));
                     LogOrder (seen ++ rest)] ++ evs
                    ++ _print_summary (self m2) (t_end - t_start)%Z
                    ++ _export_results cfg (self m2) → n ∈ seen) as Hin.
      { intros e Hsub. unfold _export_results.
        rewrite !elem_of_app, !elem_of_cons, !elem_of_nil.
        intros [[->|[->|[]]]|[He|[He|[->|[->|[]]]]]]; try done.
        - destruct (Hevs e He) as [->|(n' & ? & ?)]; [done|congruence].
        - apply Hs3 in He. congruence. }
      intros [Hn|Hn]; (eapply Hin; [|exact Hn]; done).
  - intros Hcrit. apply Hall. intros Hstop.
    destruct (Hhalt Hstop) as (T & task & w & e & w2 & Ht & Hc & Hraise).
    destruct (Hcrit T task Ht Hc w) as (v & w2' & ?). congruence.
Qed.
End engine_trace.

(** A property of every registered task, checked entry by entry. *)
Lemma every_task {E : Type} (P : Task E → Prop) (tasks : odict (Task E)) :
  Forall (λ kt, P kt.2) tasks →
  ∀ n task, od_get n tasks = Some task → P task.
Proof.
  rewrite Forall_forall. intros Hall n task Hget.
  by apply (Hall (n, task)), od_get_Some_elem.
Qed.

(** X3. A run never raises, whatever the registry built by [add] (cyclic,
    or with unknown dependency names): the [KeyError] of [self.tasks[name]]
    cannot occur. The resolved order splits into the tasks considered and
    the tasks cut off; tasks are cut off only behind a critical task that
    ended [FAILED], the last one considered. The considered tasks are
    exactly those with a RUNNING or SKIPPED line in the log; each of them
    has a result afterwards; the results stored under all other names are
    as before the run. The registry is as before, and results are recorded
    only under registered names: when every key of the results was a
    registered name before the run, this is still so afterwards. *)
Theorem run_returns_results_registered {E : Type} (now : E → Z * E)
    (cfg : Config) (m : machine E) :
  well_keyed (tasks (self m)) →
  ∃ ord m' evs (seen rest : list string),
    _topological_sort (tasks (self m)) = Some ord
    ∧ run now cfg m = Some (Returned tt, m', evs)
    ∧ ord = seen ++ rest
    ∧ tasks (self m') = tasks (self m)
    ∧ (∀ n, considered evs n ↔ n ∈ seen)
    ∧ (∀ n, n ∈ seen → is_Some (od_get n (results (self m'))))
    ∧ (∀ n, n ∉ seen →
         od_get n (results (self m')) = od_get n (results (self m)))
    ∧ (rest ≠ [] →
       ∃ n task r, last seen = Some n
         ∧ od_get n (tasks (self m)) = Some task ∧ critical task = true
         ∧ od_get n (results (self m')) = Some r ∧ status r = FAILED)
    ∧ ((∀ n, n ∈ od_keys (results (self m)) →
          registered (tasks (self m)) n) →
       ∀ n, n ∈ od_keys (results (self m')) →
         registered (tasks (self m)) n).
Proof.
  intros Hwk.
  destruct (run_account now cfg m Hwk) as (ord & m' & evs & seen & rest & ws
    & w_end & evs_loop & Hord & Hrun & -> & Hnd & Hiff & Htasks & Hkeep
    & Hevs & _ & _ & _ & _ & _ & _ & _ & Hdone & Hcut).
  assert (∀ n, n ∈ seen →
            ∃ r, od_get n (results (self m')) = Some r
                 ∧ considered evs n) as Hseen.
  { intros n [i Hi]%list_elem_of_lookup.
    destruct (proj2 (od_get_is_Some (tasks (self m)) n)) as [task Htask].
    { apply Hiff, elem_of_app. left. apply list_elem_of_lookup. eauto. }
    destruct (Hdone i n task Hi Htask) as (w & w' & r & _ & _ & Hr & _ & Hv & _).
    exists r. split; [done|]. unfold verdict in Hv.
    destruct (deps_succeeded _ _); [left|right]; tauto. }
  exists (seen ++ rest), m', evs, seen, rest. split_and!; try done.
  - intros n. split.
    + intros [Hn|Hn]; by apply (Hevs _ n) in Hn.
    + intros Hn. by destruct (Hseen n Hn) as (r & _ & ?).
  - intros n Hn. destruct (Hseen n Hn) as (r & -> & _). by eexists.
  - intros Hold n Hn.
    destruct (decide (n ∈ seen)) as [Hin|Hout].
    + apply Hiff, elem_of_app. by left.
    + apply Hold. apply od_get_is_Some. rewrite <- Hkeep by done.
      by apply od_get_is_Some.
Qed.

Lemma run_returns_results_registered_cycle :
  let m := mkMachine cyclic_pipeline tt in
  ∃ ord m' evs (seen rest : list string),
    _topological_sort (tasks (self m)) = Some ord
    ∧ run frozen CONFIG m = Some (Returned tt, m', evs)
    ∧ ord = seen ++ rest
    ∧ tasks (self m') = tasks (self m)
    ∧ (∀ n, considered evs n ↔ n ∈ seen)
    ∧ (∀ n, n ∈ seen → is_Some (od_get n (results (self m'))))
    ∧ (∀ n, n ∉ seen →
         od_get n (results (self m')) = od_get n (results (self m)))
    ∧ (rest ≠ [] →
       ∃ n task r, last seen = Some n
         ∧ od_get n (tasks (self m)) = Some task ∧ critical task = true
         ∧ od_get n (results (self m')) = Some r ∧ status r = FAILED)
    ∧ ((∀ n, n ∈ od_keys (results (self m)) →
          registered (tasks (self m)) n) →
       ∀ n, n ∈ od_keys (results (self m')) →
         registered (tasks (self m)) n).
Proof.
  intros m. apply (run_returns_results_registered frozen CONFIG m).
  apply well_keyedb_spec. vm_compute. reflexivity.
Defined.

(** X4. Every task the engine considered ends with a stored result of a
    definite shape: it carries the task's name, an end time and zero
    retries; a [SKIPPED] result has 0 records and no error, a [FAILED]
    result has 0 records and an error message, a [SUCCESS] result has no
    error; no stored result is [PENDING] or [RUNNING]. A task ends [FAILED]
    only if its operation raised. *)
Theorem considered_result_shape {E : Type} (now : E → Z * E) (cfg : Config)
    (m : machine E) :
  well_keyed (tasks (self m)) →
  ∃ m' evs,
    run now cfg m = Some (Returned tt, m', evs)
    ∧ ∀ T, considered evs T →
        ∃ task r, od_get T (tasks (self m)) = Some task
          ∧ od_get T (results (self m')) = Some r
          ∧ result_shape T r
          ∧ (status r = FAILED → ∃ w e w2, func task w = (Raised e, w2)).
Proof.
  intros Hwk.
  destruct (run_trace now cfg m Hwk) as (ord & m' & evs & seen & rest & _
    & Hrun & _ & _ & _ & Hseen & _ & Hrec & _).
  exists m', evs. split; [done|]. intros T HT. by apply Hrec, Hseen.
Qed.

Lemma considered_result_shape_scenario :
  let m := mkMachine (scenario false) (mkWorld tt []) in
  ∃ m' evs,
    run frozen CONFIG m = Some (Returned tt, m', evs)
    ∧ ∀ T, considered evs T →
        ∃ task r, od_get T (tasks (self m)) = Some task
          ∧ od_get T (results (self m')) = Some r
          ∧ result_shape T r
          ∧ (status r = FAILED → ∃ w e w2, func task w = (Raised e, w2)).
Proof.
  intros m. apply (considered_result_shape frozen CONFIG m).
  apply well_keyedb_spec. vm_compute. reflexivity.
Defined.

(** X5. When no operation ever raises, a run over a registry with
    registered, acyclic dependencies calls every registered task exactly
    once, in the resolved order, each on the world the task before it
    left, and records [SUCCESS] for each of them: with [ws] the worlds
    between the tasks, from the world the run's first clock read leaves to
    the world the loop leaves, the result and the next world of every task
    are those of one call of its operation. *)
Theorem all_operations_succeed {E : Type} (now : E → Z * E) (cfg : Config)
    (m : machine E) :
  well_keyed (tasks (self m)) →
  deps_registered (tasks (self m)) → acyclic (tasks (self m)) →
  (∀ n task, od_get n (tasks (self m)) = Some task →
     ∀ w, ∃ v w2, func task w = (Returned v, w2)) →
  ∃ ord m' evs (ws : list E) w_end,
    _topological_sort (tasks (self m)) = Some ord
    ∧ run now cfg m = Some (Returned tt, m', evs)
    ∧ (∀ n, registered (tasks (self m)) n →
         status_of (results (self m')) n = Some SUCCESS
         ∧ invocations n evs = 1)
    ∧ length ws = S (length ord)
    ∧ ws !! 0 = Some (now (world m)).2
    ∧ ws !! length ord = Some w_end
    ∧ world m' = (now w_end).2
    ∧ ∀ i n, ord !! i = Some n →
        ∃ task w w' r,
          od_get n (tasks (self m)) = Some task
          ∧ ws !! i = Some w ∧ ws !! S i = Some w'
          ∧ od_get n (results (self m')) = Some r
          ∧ (r, w') = called now task w
          ∧ status r = SUCCESS.
Proof.
  intros Hwk Hreg Hacyc Hgood.
  destruct (run_dag_account now cfg m Hwk Hreg Hacyc)
    as (m' & evs & seen & rest & ws & w_end & Hord & Hrun & Hiff & Hcons
        & Hlen & Hfirst & Hlast & Hworld & Hidx & Hcut).
  (* a call never ends FAILED *)
  assert (∀ n task w, od_get n (tasks (self m)) = Some task →
            status (called now task w).1 = SUCCESS) as Hcall.
  { intros n task w Htask. unfold called.
    destruct (now w) as [t0 w0].
    destruct (Hgood n task Htask w0) as (v & w1 & ->).
    by destruct (now w1). }
  assert (∀ i n, seen !! i = Some n →
            ∃ task w w' r,
              od_get n (tasks (self m)) = Some task
              ∧ ws !! i = Some w ∧ ws !! S i = Some w'
              ∧ od_get n (results (self m')) = Some r
              ∧ (r, w') = called now task w
              ∧ status r = SUCCESS
              ∧ invocations n evs = 1) as Hall.
  { intros i. induction i as [i IH] using lt_wf_ind. intros n Hi.
    destruct (Hidx i n Hi)
      as (task & w & w' & r & Htask & Hw & Hw' & Hr & Hearlier & Hacc & Hv).
    assert (deps_succeeded (λ d, od_get d (results (self m'))) (deps task)
            = true) as Hok.
    { apply deps_succeeded_true. intros d Hd.
      apply Hearlier, elem_of_take in Hd as (j & Hj & Hlt).
      destruct (IH j Hlt d Hj) as (_ & _ & _ & rd & _ & _ & _ & Hrd & _ & ? & _).
      by exists rd. }
    rewrite Hok in Hacc, Hv. destruct Hv as (_ & Hinv & _).
    exists task, w, w', r. split_and!; try done.
    replace r with (called now task w).1 by by rewrite <- Hacc.
    by eapply Hcall. }
  assert (rest = []) as ->.
  { destruct rest as [|x rest]; [done|].
    destruct Hcut as (n & task & r & Hl & Htask & _ & Hr & Hf); [done|].
    apply last_Some in Hl as [pre ->].
    destruct (Hall (length pre) n) as (? & ? & ? & r' & _ & _ & _ & Hr' & _
      & Hs & _).
    { by rewrite lookup_app_r, Nat.sub_diag by lia. }
    congruence. }
  rewrite app_nil_r in *.
  exists seen, m', evs, ws, w_end. split_and!; try done.
  - intros n [i Hi]%Hiff%list_elem_of_lookup.
    destruct (Hall i n Hi) as (_ & _ & _ & r & _ & _ & _ & Hr & _ & Hs & Hinv).
    split; [|done]. unfold status_of. by rewrite Hr, <- Hs.
  - intros i n Hi.
    destruct (Hall i n Hi) as (task & w & w' & r & ? & ? & ? & ? & ? & ? & _).
    by exists task, w, w', r.
Qed.

Lemma all_operations_succeed_main :
  let m := mkMachine (main_pipeline (λ _, returns (E:=unit) 0) "r0") tt in
  ∃ ord m' evs (ws : list unit) w_end,
    _topological_sort (tasks (self m)) = Some ord
    ∧ run frozen CONFIG m = Some (Returned tt, m', evs)
    ∧ (∀ n, registered (tasks (self m)) n →
         status_of (results (self m')) n = Some SUCCESS
         ∧ invocations n evs = 1)
    ∧ length ws = S (length ord)
    ∧ ws !! 0 = Some (frozen (world m)).2
    ∧ ws !! length ord = Some w_end
    ∧ world m' = (frozen w_end).2
    ∧ ∀ i n, ord !! i = Some n →
        ∃ task w w' r,
          od_get n (tasks (self m)) = Some task
          ∧ ws !! i = Some w ∧ ws !! S i = Some w'
          ∧ od_get n (results (self m')) = Some r
          ∧ (r, w') = called frozen task w
          ∧ status r = SUCCESS.
Proof.
  intros m. apply (all_operations_succeed frozen CONFIG m).
  - apply well_keyedb_spec. vm_compute. reflexivity.
  - apply deps_registeredb_spec. vm_compute. reflexivity.
  - apply (ranked_acyclic _ (λ n, index_of n (od_keys (tasks (self m))))).
    vm_compute. reflexivity.
  - apply (every_task (λ task, ∀ w, ∃ v w2, func task w = (Returned v, w2))).
    repeat constructor; intros w; by eexists _, _.
Defined.

(** X6. A failing task that is not critical never stops the pipeline: when
    the operations of the critical tasks never raise, every registered
    task is considered and gets a result, whatever the other operations
    do. *)
Theorem noncritical_failures_do_not_halt {E : Type} (now : E → Z * E)
    (cfg : Config) (m : machine E) :
  well_keyed (tasks (self m)) →
  (∀ T task, od_get T (tasks (self m)) = Some task → critical task = true →
     ∀ w, ∃ v w2, func task w = (Returned v, w2)) →
  ∃ m' evs,
    run now cfg m = Some (Returned tt, m', evs)
    ∧ (LogCriticalStop ∉ evs)
    ∧ ∀ n, registered (tasks (self m)) n →
        considered evs n ∧ is_Some (od_get n (results (self m'))).
Proof.
  intros Hwk Hcrit.
  destruct (run_trace now cfg m Hwk) as (ord & m' & evs & seen & rest & Hord
    & Hrun & -> & Hnd & Hiff & Hseen & _ & Hrec & Hall & _).
  rewrite (Hall Hcrit), app_nil_r in *.
  exists m', evs. split_and!; [done| |].
  - intros Hstop.
    assert (∃ T task w e w2, od_get T (tasks (self m)) = Some task
              ∧ critical task = true ∧ func task w = (Raised e, w2))
      as (T & task & w & e & w2 & HT & Hc & Hraise).
    { unfold run in Hrun. rewrite Hord in Hrun.
      destruct (now (world m)) as [t0 w1].
      destruct (run_loop_trace now cfg seen (mkMachine (self m) w1))
        as (m3 & evs3 & seen3 & rest3 & Hloop & _ & _ & _ & _ & _ & _
            & Hhalt & _); [done..|(intros; by apply Hiff)|].
      rewrite Hloop in Hrun. destruct (now (world m3)) as [t1 w3].
      simplify_eq. apply Hhalt.
      unfold _export_results in Hstop.
      rewrite !elem_of_app, !elem_of_cons, !elem_of_nil in Hstop.
      destruct Hstop as [[?|[?|[]]]|[?|[He|[?|[?|[]]]]]]; try done.
      exfalso. unfold _print_summary in He.
      by apply elem_of_cons in He as [?|([? ?] & ? & _)%list_elem_of_fmap]. }
    destruct (Hcrit T task HT Hc w) as (v & w2' & ?). congruence.
  - intros n Hn%Hiff. split; [by apply Hseen|].
    destruct (Hrec n Hn) as (task & r & _ & -> & _). by eexists.
Qed.

Lemma noncritical_failures_do_not_halt_scenario :
  let m := mkMachine (scenario false) (mkWorld tt []) in
  ∃ m' evs,
    run frozen CONFIG m = Some (Returned tt, m', evs)
    ∧ (LogCriticalStop ∉ evs)
    ∧ ∀ n, registered (tasks (self m)) n →
        considered evs n ∧ is_Some (od_get n (results (self m'))).
Proof.
  intros m. apply (noncritical_failures_do_not_halt frozen CONFIG m).
  - apply well_keyedb_spec. vm_compute. reflexivity.
  - apply (every_task (λ task, critical task = true →
                         ∀ w, ∃ v w2, func task w = (Returned v, w2))).
    repeat constructor; cbn; intros Hc w;
      first [discriminate Hc | by eexists _, _].
Defined.



(** ** More on the retry policy *)

(** X8. The wrapper gives up only when every attempt is used: whenever it
    raises, the wrapped function has been called [max_retries + 1] times
    and the wrapper has slept after each call but the last, with the delays
    of attempts 0 to [max_retries - 1]. With a negative [max_retries] the
    function is never called and the wrapper returns [None]. *)
Theorem retry_raises_only_when_exhausted {X : Type} (cfg : Config)
    (max_retries : Z) (func : X → outcome pyvalue * X) (w : World X) :
  ((max_retries < 0)%Z →
   retry_with_backoff cfg max_retries func w = (Returned VOther, w))
  ∧ ((0 ≤ max_retries)%Z →
     ∀ e w', retry_with_backoff cfg max_retries func w = (Raised e, w') →
       attempts_made (effects w')
       = attempts_made (effects w) + Z.to_nat max_retries + 1
       ∧ sleeps (effects w')
         = sleeps (effects w)
           ++ (retry_delay cfg <$> seq 0 (Z.to_nat max_retries))).
Proof.
  split.
  - intros Hneg. unfold retry_with_backoff.
    by replace (Z.to_nat (max_retries + 1)) with 0 by lia.
  - intros Hmax e w' Hrun. unfold retry_with_backoff in Hrun.
    apply attempts_raised in Hrun as [Hsl Hat]; [|lia].
    rewrite Hat, Hsl. split; [lia|]. do 3 f_equal. lia.
Qed.

Lemma retry_raises_only_when_exhausted_twice :
  let func := raises (E:=unit) (Exn "RuntimeError" "down") in
  let w := mkWorld tt [] in
  ∃ e w',
    retry_with_backoff CONFIG 2 func w = (Raised e, w')
    ∧ attempts_made (effects w')
      = attempts_made (effects w) + Z.to_nat 2 + 1
    ∧ sleeps (effects w')
      = sleeps (effects w) ++ (retry_delay CONFIG <$> seq 0 (Z.to_nat 2)).
Proof.
  intros func w.
  destruct (retry_with_backoff CONFIG 2 func w) as [[v|e] w'] eqn:Hrun.
  - vm_compute in Hrun. discriminate Hrun.
  - exists e, w'. split; [reflexivity|].
    apply (proj2 (retry_raises_only_when_exhausted CONFIG 2 func w)
             ltac:(lia) e w' Hrun).
Defined.

(** ** More on the orchestrator's three phases *)

Section etl_facts.
Context {Raw Fields : Type}.
Context (store_row : string → Raw → option Fields)
  (convert : string → Fields → Fields)
  (admits : string → list Fields → list Fields → bool)
  (clean_email standardize_date : Fields → Fields).
Implicit Types (s : Store Raw Fields) (w : World (Store Raw Fields)).

Lemma transform_and_validate_body_raise t s e s' :
  transform_and_validate_body clean_email standardize_date t s
  = (Raised e, s') → s' = s.
Proof.
  unfold transform_and_validate_body.
  destruct (staging s !! stg t); congruence.
Qed.

Lemma load_to_production_body_raise t s e s' :
  load_to_production_body convert admits t s = (Raised e, s') → s' = s.
Proof.
  unfold load_to_production_body.
  destruct (staging s !! stg t); [|congruence].
  destruct (production s !! t); [|congruence].
  destruct (admits t _ _); congruence.
Qed.

(** A decorated function raises only after all four attempts. *)
Lemma decorated_raise
    (body : Store Raw Fields → outcome pyvalue * Store Raw Fields) w w' e :
  retry_with_backoff CONFIG (MAX_RETRIES CONFIG) body w = (Raised e, w') →
  sleeps (effects w') = sleeps (effects w) ++ [2%Q; 4%Q; 8%Q]
  ∧ attempts_made (effects w') = attempts_made (effects w) + 4.
Proof.
  intros Hrun. unfold retry_with_backoff in Hrun.
  apply attempts_raised in Hrun as [-> ->]; done.
Qed.

Lemma transform_and_validate_agree t w :
  ∃ effs,
    transform_and_validate clean_email standardize_date t w
    = ((transform_and_validate_body clean_email standardize_date t (ext w)).1,
       mkWorld
         (transform_and_validate_body clean_email standardize_date t (ext w)).2
         effs)
    ∧ ((∃ v, (transform_and_validate_body clean_email standardize_date t
                (ext w)).1 = Returned v) → effs = effects w ++ [Attempt 0]).
Proof.
  apply retry_agree_keep; [done|]. intros x e x'.
  apply transform_and_validate_body_raise.
Qed.

Lemma load_to_production_agree t w :
  ∃ effs,
    load_to_production convert admits t w
    = ((load_to_production_body convert admits t (ext w)).1,
       mkWorld (load_to_production_body convert admits t (ext w)).2 effs)
    ∧ ((∃ v, (load_to_production_body convert admits t (ext w)).1
             = Returned v) → effs = effects w ++ [Attempt 0]).
Proof.
  apply retry_agree_keep; [done|]. intros x e x'.
  apply load_to_production_body_raise.
Qed.

Lemma insert_rows_fields t clock i rows :
  fields <$> insert_rows store_row t clock i rows = omap (store_row t) rows.
Proof.
  revert i. induction rows as [|row rows IH]; intros i; [done|].
  cbn [insert_rows omap list_omap].
  destruct (store_row t row); [|apply IH].
  rewrite fmap_cons. f_equal. apply IH.
Qed.

Lemma insert_rows_defaults t clock i rows r :
  r ∈ insert_rows store_row t clock i rows →
  is_valid r = (if validated t then Some false else None)
  ∧ error_message r = None.
Proof.
  revert i. induction rows as [|row rows IH]; intros i; cbn [insert_rows].
  - by intros ?%elem_of_nil.
  - destruct (store_row t row); [|apply IH].
    intros [->|Hr]%elem_of_cons; [done|by eapply IH].
Qed.
End etl_facts.

(** X9. When one of the orchestrator's three decorated ETL functions
    raises, the body has been attempted four times and the wrapper has
    slept 2, 4 and 8 seconds in between; files, production tables and the
    staging tables of other tables are as before the call. The store as a
    whole is as before the call, with one exception: the stage phase on a
    file whose first data row has more fields than the header raises
    [TypeError] after its [TRUNCATE], and leaves its staging table
    empty. *)
Theorem etl_failure_effects {Raw Fields : Type}
    (store_row : string → Raw → option Fields)
    (surplus : Raw → option string)
    (convert : string → Fields → Fields)
    (admits : string → list Fields → list Fields → bool)
    (clean_email standardize_date : Fields → Fields)
    (t csv_file : string) (clock : nat → Z)
    (w w' : World (Store Raw Fields)) (e : exn) :
  load_to_staging store_row surplus t csv_file clock w = (Raised e, w')
  ∨ transform_and_validate clean_email standardize_date t w = (Raised e, w')
  ∨ load_to_production convert admits t w = (Raised e, w') →
  sleeps (effects w') = sleeps (effects w) ++ [2%Q; 4%Q; 8%Q]
  ∧ attempts_made (effects w') = attempts_made (effects w) + 4
  ∧ files (ext w') = files (ext w)
  ∧ production (ext w') = production (ext w)
  ∧ (∀ t', t' ≠ stg t → staging (ext w') !! t' = staging (ext w) !! t')
  ∧ (ext w' = ext w
     ∨ ∃ row rows msg,
         load_to_staging store_row surplus t csv_file clock w = (Raised e, w')
         ∧ files (ext w) !! csv_file = Some (row :: rows)
         ∧ surplus row = Some msg
         ∧ e = Exn "TypeError" msg
         ∧ ext w' = set_staging (stg t) [] (ext w)).
Proof.
  intros Hrun.
  assert (sleeps (effects w') = sleeps (effects w) ++ [2%Q; 4%Q; 8%Q]
          ∧ attempts_made (effects w') = attempts_made (effects w) + 4)
    as [Hsl Hat].
  { destruct Hrun as [Hrun|[Hrun|Hrun]]; by eapply decorated_raise. }
  assert (ext w' = ext w
          ∨ ∃ row rows msg,
              load_to_staging store_row surplus t csv_file clock w
              = (Raised e, w')
              ∧ files (ext w) !! csv_file = Some (row :: rows)
              ∧ surplus row = Some msg
              ∧ e = Exn "TypeError" msg
              ∧ ext w' = set_staging (stg t) [] (ext w)) as Hstore.
  { destruct Hrun as [Hrun|[Hrun|Hrun]].
    - destruct (load_to_staging_agree store_row surplus t csv_file clock w)
        as (effs & Hagree & _).
      rewrite Hrun in Hagree.
      destruct (load_to_staging_body store_row surplus t csv_file clock
                  (ext w)) as [out x] eqn:Hbody.
      cbn [fst snd] in Hagree. injection Hagree as <- ->. cbn [ext].
      destruct (load_to_staging_body_raise _ _ _ _ _ _ _ _ Hbody)
        as [->|(row & rows & msg & Hf & _ & Hsur & -> & ->)]; [by left|].
      right. by eexists _, _, _.
    - left.
      destruct (transform_and_validate_agree clean_email standardize_date t w)
        as (effs & Hagree & _).
      rewrite Hrun in Hagree.
      destruct (transform_and_validate_body clean_email standardize_date t
                  (ext w)) as [out x] eqn:Hbody.
      cbn [fst snd] in Hagree. injection Hagree as <- ->. cbn [ext].
      by eapply transform_and_validate_body_raise.
    - left.
      destruct (load_to_production_agree convert admits t w)
        as (effs & Hagree & _).
      rewrite Hrun in Hagree.
      destruct (load_to_production_body convert admits t (ext w))
        as [out x] eqn:Hbody.
      cbn [fst snd] in Hagree. injection Hagree as <- ->. cbn [ext].
      by eapply load_to_production_body_raise. }
  split_and!; [done|done|..|done].
  - destruct Hstore as [->|(? & ? & ? & _ & _ & _ & _ & ->)]; done.
  - destruct Hstore as [->|(? & ? & ? & _ & _ & _ & _ & ->)]; done.
  - intros t' Hne.
    destruct Hstore as [->|(? & ? & ? & _ & _ & _ & _ & ->)]; [done|].
    cbn [set_staging staging]. by rewrite lookup_insert_ne.
Qed.

(** The first line of [customers.csv] has a field too many. *)
Lemma etl_failure_effects_surplus :
  let w := one_customer in
  let r := load_to_staging (λ _ row, Some row) (λ _, Some "surplus")
             "customers" "customers.csv" (λ _, 0%Z) w in
  sleeps (effects r.2) = sleeps (effects w) ++ [2%Q; 4%Q; 8%Q]
  ∧ attempts_made (effects r.2) = attempts_made (effects w) + 4
  ∧ files (ext r.2) = files (ext w)
  ∧ production (ext r.2) = production (ext w)
  ∧ (∀ t', t' ≠ stg "customers" →
       staging (ext r.2) !! t' = staging (ext w) !! t')
  ∧ (ext r.2 = ext w
     ∨ ∃ row rows msg,
         load_to_staging (λ _ row, Some row) (λ _, Some "surplus")
           "customers" "customers.csv" (λ _, 0%Z) w
         = (Raised (Exn "TypeError" "surplus"), r.2)
         ∧ files (ext w) !! "customers.csv" = Some (row :: rows)
         ∧ (λ _ : Z, Some "surplus") row = Some msg
         ∧ Exn "TypeError" "surplus" = Exn "TypeError" msg
         ∧ ext r.2 = set_staging (stg "customers") [] (ext w)).
Proof.
  intros w r.
  apply (etl_failure_effects (λ _ row, Some row) (λ _, Some "surplus")
           (λ _ f, f) (λ _ _ _, true) (λ f, f) (λ f, f) "customers"
           "customers.csv" (λ _, 0%Z) w r.2
           (Exn "TypeError" "surplus")).
  left. vm_compute. reflexivity.
Defined.

Lemma length_omap_le {A B : Type} (f : A → option B) (l : list A) :
  (length (omap f l) ≤ length l)%nat.
Proof.
  induction l as [|a l IH]; [done|]. cbn [omap list_omap].
  destruct (f a); cbn [length]; lia.
Qed.

(** X10. A staging load that finds its staging table and data rows, the
    first of which has no more fields than the header, returns at the first
    attempt with the number of rows the database accepted; the staging
    table then holds exactly the accepted rows, in file order (the rows
    whose [INSERT] raised are dropped, the table's previous content is
    gone), every one of them with [is_valid = FALSE] where the table has
    the column and with no error message; other staging tables and the
    production tables are untouched. *)
Theorem staged_rows_await_validation {Raw Fields : Type}
    (store_row : string → Raw → option Fields)
    (surplus : Raw → option string)
    (t csv_file : string) (clock : nat → Z)
    (w : World (Store Raw Fields)) (row : Raw) (rest : list Raw) :
  files (ext w) !! csv_file = Some (row :: rest) → surplus row = None →
  is_Some (staging (ext w) !! stg t) →
  ∃ staged w',
    load_to_staging store_row surplus t csv_file clock w
    = (Returned (VInt (Z.of_nat (length staged))), w')
    ∧ effects w' = effects w ++ [Attempt 0]
    ∧ staging (ext w') = <[stg t := staged]> (staging (ext w))
    ∧ production (ext w') = production (ext w)
    ∧ fields <$> staged = omap (store_row t) (row :: rest)
    ∧ (length staged ≤ length (row :: rest))%nat
    ∧ ∀ r, r ∈ staged →
        is_valid r = (if validated t then Some false else None)
        ∧ error_message r = None.
Proof.
  intros Hfile Hsur [prev Hprev].
  destruct (load_to_staging_agree store_row surplus t csv_file clock w)
    as (effs & Hrun & Heffs).
  unfold load_to_staging_body in Hrun, Heffs.
  rewrite Hfile, Hprev, Hsur in Hrun, Heffs.
  cbn [fst snd] in Hrun, Heffs.
  rewrite Heffs in Hrun by by eexists.
  eexists _, _. split; [exact Hrun|]. cbn [ext effects].
  split_and!; try done.
  - apply insert_rows_fields.
  - rewrite <- (length_fmap fields), insert_rows_fields.
    apply length_omap_le.
  - intros r. apply insert_rows_defaults.
Qed.

Lemma staged_rows_await_validation_one_customer :
  ∃ staged w',
    load_to_staging (λ _ row, Some row) (λ _, None) "customers" "customers.csv"
      (λ _, 0%Z) one_customer
    = (Returned (VInt (Z.of_nat (length staged))), w')
    ∧ effects w' = effects one_customer ++ [Attempt 0]
    ∧ staging (ext w')
      = <[stg "customers" := staged]> (staging (ext one_customer))
    ∧ production (ext w') = production (ext one_customer)
    ∧ fields <$> staged = omap ((λ _ row, Some row) "customers") [7%Z]
    ∧ (length staged ≤ length [7%Z])%nat
    ∧ ∀ r, r ∈ staged →
        is_valid r = (if validated "customers" then Some false else None)
        ∧ error_message r = None.
Proof.
  apply (staged_rows_await_validation (λ _ row, Some row) (λ _, None)
           "customers" "customers.csv" (λ _, 0%Z) one_customer 7%Z []).
  - reflexivity.
  - reflexivity.
  - eexists. reflexivity.
Defined.

(** ** Composition of the orchestrator's phases *)

Section etl_chain_facts.
Context {Raw Fields : Type}.
Context (clean_email standardize_date : Fields → Fields).

Lemma transform_and_validate_body_rows t (s : Store Raw Fields) rows :
  staging s !! stg t = Some rows →
  ∃ rows',
    transform_and_validate_body clean_email standardize_date t s
    = (Returned (VInt (Z.of_nat (length rows))),
       set_staging (stg t) rows' s)
    ∧ fields <$> rows'
      = cleaning clean_email standardize_date t <$> (fields <$> rows).
Proof.
  intros Hrows. unfold transform_and_validate_body, cleaning.
  rewrite Hrows. eexists. split.
  - f_equal. do 3 f_equal.
    repeat case_decide; by rewrite ?length_fmap.
  - repeat case_decide; rewrite <- ?list_fmap_compose; done.
Qed.
End etl_chain_facts.

(** X11. The three phases in a row, for any table: when the CSV has data
    rows, the first of which has no more fields than the header, the
    staging and production tables exist and the production table's
    constraints admit the new rows, each phase returns at its first
    attempt; staging and transformation both report the number of rows the
    database accepted, the production table ends as its previous rows
    followed by the accepted rows, cleaned and converted, in file order,
    and promotion reports the size of the whole production table, previous
    rows included. *)
Theorem stage_transform_promote {Raw Fields : Type}
    (store_row : string → Raw → option Fields)
    (convert : string → Fields → Fields)
    (admits : string → list Fields → list Fields → bool)
    (surplus : Raw → option string)
    (clean_email standardize_date : Fields → Fields)
    (t csv_file : string) (clock : nat → Z)
    (w : World (Store Raw Fields)) (first : Raw) (rows : list Raw)
    (prod : list Fields) :
  files (ext w) !! csv_file = Some rows →
  head rows = Some first → surplus first = None →
  is_Some (staging (ext w) !! stg t) →
  production (ext w) !! t = Some prod →
  admits t prod
    (convert t <$> (cleaning clean_email standardize_date t
                      <$> omap (store_row t) rows)) = true →
  ∃ w1 w2 w3,
    load_to_staging store_row surplus t csv_file clock w
    = (Returned (VInt (Z.of_nat (length (omap (store_row t) rows)))), w1)
    ∧ transform_and_validate clean_email standardize_date t w1
      = (Returned (VInt (Z.of_nat (length (omap (store_row t) rows)))), w2)
    ∧ load_to_production convert admits t w2
      = (Returned (VInt (Z.of_nat (length prod
                                   + length (omap (store_row t) rows)))), w3)
    ∧ production (ext w3) !! t
      = Some (prod ++ (convert t
                         <$> (cleaning clean_email standardize_date t
                                <$> omap (store_row t) rows)))
    ∧ effects w3 = effects w ++ [Attempt 0; Attempt 0; Attempt 0].
Proof.
  intros Hfile Hhead Hsur [prev Hprev] Hprod Hadm.
  (* stage *)
  destruct (load_to_staging_agree store_row surplus t csv_file clock w)
    as (effs1 & Hrun1 & Heffs1).
  unfold load_to_staging_body in Hrun1, Heffs1.
  rewrite Hfile, Hprev in Hrun1, Heffs1.
  destruct rows as [|row rows]; [done|]. injection Hhead as <-.
  rewrite Hsur in Hrun1, Heffs1. cbn [fst snd] in Hrun1, Heffs1.
  rewrite Heffs1 in Hrun1 by by eexists. clear Heffs1.
  set (staged := insert_rows store_row t clock 0 (row :: rows)) in *.
  assert (fields <$> staged = omap (store_row t) (row :: rows)) as Hstaged
    by apply insert_rows_fields.
  set (w1 := mkWorld (set_staging (stg t) staged (ext w))
               (effects w ++ [Attempt 0])) in *.
  (* transform *)
  destruct (transform_and_validate_agree clean_email standardize_date t w1)
    as (effs2 & Hrun2 & Heffs2).
  destruct (transform_and_validate_body_rows clean_email standardize_date
              t (ext w1) staged) as (rows2 & Hbody2 & Hrows2).
  { apply lookup_insert_eq. }
  rewrite Hbody2 in Hrun2, Heffs2. cbn [fst snd] in Hrun2, Heffs2.
  rewrite Heffs2 in Hrun2 by by eexists. clear Heffs2.
  set (w2 := mkWorld (set_staging (stg t) rows2 (ext w1))
               (effects w1 ++ [Attempt 0])) in *.
  (* promote *)
  destruct (load_to_production_agree convert admits t w2)
    as (effs3 & Hrun3 & Heffs3).
  assert ((λ r, convert t (fields r)) <$> rows2
          = convert t <$> (cleaning clean_email standardize_date t
                             <$> omap (store_row t) (row :: rows))) as Hnew.
  { rewrite <- Hstaged, <- Hrows2, <- list_fmap_compose. done. }
  unfold load_to_production_body in Hrun3, Heffs3.
  change (staging (ext w2) !! stg t)
    with (<[stg t := rows2]> (staging (ext w1)) !! stg t) in Hrun3, Heffs3.
  rewrite lookup_insert_eq in Hrun3, Heffs3.
  change (production (ext w2)) with (production (ext w)) in Hrun3, Heffs3.
  rewrite Hprod, Hnew, Hadm in Hrun3, Heffs3.
  cbn [fst snd] in Hrun3, Heffs3.
  rewrite Heffs3 in Hrun3 by by eexists. clear Heffs3.
  eexists _, _, _. split_and!.
  - rewrite Hrun1. do 4 f_equal. by rewrite <- Hstaged, length_fmap.
  - rewrite Hrun2. do 4 f_equal. by rewrite <- Hstaged, length_fmap.
  - rewrite Hrun3. do 4 f_equal. by rewrite length_app, !length_fmap.
  - cbn [ext production set_production]. apply lookup_insert_eq.
  - cbn [effects]. subst w2 w1. cbn [effects].
    by rewrite <- !app_assoc.
Qed.

Lemma stage_transform_promote_one_customer :
  ∃ w1 w2 w3,
    load_to_staging (λ _ row, Some row) (λ _, None) "customers" "customers.csv"
      (λ _, 0%Z) one_customer
    = (Returned (VInt (Z.of_nat
         (length (omap ((λ _ row, Some row) "customers") [7%Z])))), w1)
    ∧ transform_and_validate (λ f, f) (λ f, f) "customers" w1
      = (Returned (VInt (Z.of_nat
           (length (omap ((λ _ row, Some row) "customers") [7%Z])))), w2)
    ∧ load_to_production (λ _ f, f) (λ _ _ _, true) "customers" w2
      = (Returned (VInt (Z.of_nat
           (length ([] : list Z)
            + length (omap ((λ _ row, Some row) "customers") [7%Z])))), w3)
    ∧ production (ext w3) !! "customers"
      = Some ([] ++ ((λ _ f, f) "customers"
                       <$> (cleaning (λ f, f) (λ f, f) "customers"
                              <$> omap ((λ _ row, Some row) "customers")
                                    [7%Z])))
    ∧ effects w3 = effects one_customer ++ [Attempt 0; Attempt 0; Attempt 0].
Proof.
  apply (stage_transform_promote (λ _ row, Some row) (λ _ f, f)
           (λ _ _ _, true) (λ _, None) (λ f, f) (λ f, f) "customers"
           "customers.csv" (λ _, 0%Z) one_customer 7%Z [7%Z] []).
  - reflexivity.
  - reflexivity.
  - reflexivity.
  - eexists. reflexivity.
  - reflexivity.
  - reflexivity.
Defined.

(** X12. Promotion only ever appends: whatever the outcome of
    [load_to_production], the staging tables and the CSV files are as
    before (the promoted rows stay in staging), no production table
    appears or disappears, every production table keeps its previous rows
    as a prefix, only the promoted table can grow, and a returned count is
    the size of the promoted table after the call. *)
Theorem promotion_only_appends {Raw Fields : Type}
    (convert : string → Fields → Fields)
    (admits : string → list Fields → list Fields → bool)
    (t : string) (w : World (Store Raw Fields)) :
  let out := (load_to_production convert admits t w).1 in
  let w' := (load_to_production convert admits t w).2 in
  staging (ext w') = staging (ext w)
  ∧ files (ext w') = files (ext w)
  ∧ (∀ t', production (ext w) !! t' = None →
           production (ext w') !! t' = None)
  ∧ (∀ t' prod, production (ext w) !! t' = Some prod →
       ∃ more, production (ext w') !! t' = Some (prod ++ more)
               ∧ (t' ≠ t → more = []))
  ∧ (∀ v, out = Returned v →
       ∃ rows, production (ext w') !! t = Some rows
               ∧ v = VInt (Z.of_nat (length rows))).
Proof.
  intros out w'. subst out w'.
  destruct (load_to_production_agree convert admits t w)
    as (effs & -> & _). cbn [fst snd ext].
  unfold load_to_production_body.
  destruct (staging (ext w) !! stg t) as [rows|] eqn:Hrows; cbn [fst snd].
  2: { split_and!; try done.
       intros t' prod Hp. exists []. by rewrite app_nil_r. }
  destruct (production (ext w) !! t) as [prod|] eqn:Hprod; cbn [fst snd].
  2: { split_and!; try done.
       intros t' prod Hp. exists []. by rewrite app_nil_r. }
  destruct (admits t prod _) eqn:Hadm; cbn [fst snd].
  2: { split_and!; try done.
       intros t' prod' Hp. exists []. by rewrite app_nil_r. }
  cbn [set_production staging files production]. split_and!; try done.
  - intros t' Hnone. rewrite lookup_insert_ne; [done|]. congruence.
  - intros t' prod' Hp. destruct (decide (t' = t)) as [->|Hne].
    + rewrite lookup_insert_eq. simplify_eq. by eexists.
    + rewrite lookup_insert_ne by done. exists []. by rewrite app_nil_r.
  - intros v [= <-]. rewrite lookup_insert_eq. by eexists.
Qed.

(** ** The M4 pipeline's stages *)

Section m4_facts.
Context {Raw Fields : Type}.
Context (infile_row : string → Raw → Fields)
  (convert : string → Fields → Fields)
  (admits : string → list Fields → list Fields → bool)
  (normalise : string → Fields → Fields)
  (rule : string → Fields → bool).
Implicit Types (s : Store Raw Fields) (r : StagingRecord Fields).

Lemma validated_cases t :
  validated t = true → t = "customers" ∨ t = "reviews" ∨ t = "orders".
Proof.
  unfold validated. intros Hv%bool_decide_eq_true.
  repeat (apply elem_of_cons in Hv as [->|Hv]; [by eauto|]).
  by apply elem_of_nil in Hv.
Qed.

(** For a validated table the dispatch of [transform_staging_data] runs
    the table's three [UPDATE]s with the table's message. *)
Lemma transform_dispatch t rows :
  validated t = true →
  (if decide (t = "customers") then _transform_customers normalise rule rows
   else if decide (t = "orders") then _transform_orders normalise rule rows
   else if decide (t = "reviews") then _transform_reviews normalise rule rows
        else rows)
  = three_updates normalise rule t (invalid_message t) rows.
Proof.
  intros Hv. by destruct (validated_cases t Hv) as [-> | [-> | ->]].
Qed.

Lemma transform_staging_data_validated t rid s rows :
  validated t = true → staging s !! stg t = Some rows →
  transform_staging_data normalise rule t rid s
  = let rows' := three_updates normalise rule t (invalid_message t) rows in
    (true,
     log_audit rid "TRANSFORM" t (Z.of_nat (length rows))
       (Z.of_nat (length (valid_rows rows')))
       (Z.of_nat (length rows) - Z.of_nat (length (valid_rows rows')))
       "SUCCESS" (set_staging (stg t) rows' s)).
Proof.
  intros Hv Hrows. unfold transform_staging_data.
  change (bool_decide (t ∈ ["customers"; "reviews"; "orders"]))
    with (validated t).
  rewrite Hv, Hrows. cbn [negb]. by rewrite transform_dispatch.
Qed.

(** What the three [UPDATE]s leave in one row. *)
Lemma three_updates_row t msg r :
  let r' := mark_invalid msg (mark_valid rule t (on_fields (normalise t) r)) in
  fields r' = normalise t (fields r)
  ∧ load_timestamp r' = load_timestamp r
  ∧ (if rule t (normalise t (fields r))
     then is_valid r' = Some true ∧ error_message r' = None
     else match is_valid r with
          | Some true =>
              is_valid r' = Some true ∧ error_message r' = error_message r
          | _ => is_valid r' = Some false ∧ error_message r' = Some msg
          end).
Proof.
  unfold mark_invalid, mark_valid, on_fields. cbn [fields].
  destruct (rule t (normalise t (fields r))) eqn:Hrule; [done|].
  cbn [is_valid]. by destruct (is_valid r) as [[]|].
Qed.

Lemma three_updates_lookup t msg rows i :
  three_updates normalise rule t msg rows !! i
  = (λ r, mark_invalid msg (mark_valid rule t (on_fields (normalise t) r)))
      <$> rows !! i.
Proof.
  unfold three_updates. rewrite !list_lookup_fmap.
  by destruct (rows !! i).
Qed.

(** The rows of a batch that entered with no [TRUE] flag and are flagged
    valid by the transformation are those that satisfy the rule. *)
Lemma valid_rows_fresh t msg rows :
  (∀ r, r ∈ rows → is_valid r ≠ Some true) →
  fields <$> valid_rows (three_updates normalise rule t msg rows)
  = filter (λ f, rule t f = true) (normalise t <$> (fields <$> rows)).
Proof.
  unfold valid_rows, three_updates.
  induction rows as [|r rows IH]; intros Hfresh; [done|].
  rewrite !fmap_cons, !filter_cons.
  pose proof (three_updates_row t msg r) as (Hf & _ & Hv). cbn zeta in Hf, Hv.
  assert (is_valid r ≠ Some true) as Hr by (apply Hfresh; left).
  rewrite <- IH by (intros r' Hr'; apply Hfresh; by right).
  destruct (rule t (normalise t (fields r))) eqn:Hrule.
  - destruct Hv as [Hv _]. rewrite !decide_True by done.
    rewrite fmap_cons. by rewrite Hf.
  - assert (is_valid (mark_invalid msg
              (mark_valid rule t (on_fields (normalise t) r))) = Some false)
      as Hv' by (destruct (is_valid r) as [[]|]; by destruct Hv).
    rewrite decide_False by (rewrite Hv'; done).
    rewrite decide_False by (cbn beta; congruence). done.
Qed.
End m4_facts.

(** X13. The M4 transformation decides every row of a validated table:
    the table keeps its rows, in order, with the data columns normalised
    and the load time untouched; afterwards no validity flag is [NULL]. A
    row that satisfies the table's rule is valid with no message; a row
    that fails it and was not already flagged valid is invalid with the
    table's message; a row that fails the rule but entered flagged valid
    stays valid. The call returns [True]. *)
Theorem m4_transform_decides_every_row {Raw Fields : Type}
    (normalise : string → Fields → Fields) (rule : string → Fields → bool)
    (t run_id : string) (s : Store Raw Fields)
    (rows : list (StagingRecord Fields)) :
  validated t = true → staging s !! stg t = Some rows →
  ∃ rows',
    (transform_staging_data normalise rule t run_id s).1 = true
    ∧ staging (transform_staging_data normalise rule t run_id s).2 !! stg t
      = Some rows'
    ∧ length rows' = length rows
    ∧ ∀ i r, rows !! i = Some r →
        ∃ r', rows' !! i = Some r'
          ∧ fields r' = normalise t (fields r)
          ∧ load_timestamp r' = load_timestamp r
          ∧ is_valid r' ≠ None
          ∧ (if rule t (normalise t (fields r))
             then is_valid r' = Some true ∧ error_message r' = None
             else match is_valid r with
                  | Some true =>
                      is_valid r' = Some true
                      ∧ error_message r' = error_message r
                  | _ =>
                      is_valid r' = Some false
                      ∧ error_message r' = Some (invalid_message t)
                  end).
Proof.
  intros Hv Hrows.
  rewrite (transform_staging_data_validated normalise rule t run_id s rows)
    by done.
  cbn zeta. cbn [fst snd]. eexists. split_and!; [done| |..].
  - cbn [log_audit set_staging staging]. apply lookup_insert_eq.
  - unfold three_updates. by rewrite !length_fmap.
  - intros i r Hi. eexists. rewrite three_updates_lookup, Hi.
    split; [done|].
    pose proof (three_updates_row normalise rule t (invalid_message t) r)
      as (Hf & Hts & Hdec). cbn zeta in Hf, Hts, Hdec.
    split_and!; try done.
    destruct (rule t (normalise t (fields r)));
      [|destruct (is_valid r) as [[]|]]; destruct Hdec as [-> _]; done.
Qed.

Lemma m4_transform_decides_every_row_stale :
  let s : Store Z Z :=
    mkStore ∅ {["stg_reviews" := [mkStaged 9%Z (Some 0%Z) (Some true) None;
                                  mkStaged 3%Z (Some 0%Z) None None]]} ∅ [] in
  let rule := λ (_ : string) (f : Z), (f <=? 5)%Z in
  ∃ rows',
    (transform_staging_data (λ _ f, f) rule "reviews" "run" s).1 = true
    ∧ staging (transform_staging_data (λ _ f, f) rule "reviews" "run" s).2
        !! stg "reviews" = Some rows'
    ∧ length rows' = 2
    ∧ ∀ i r, [mkStaged 9%Z (Some 0%Z) (Some true) None;
              mkStaged 3%Z (Some 0%Z) None None] !! i = Some r →
        ∃ r', rows' !! i = Some r'
          ∧ fields r' = fields r
          ∧ load_timestamp r' = load_timestamp r
          ∧ is_valid r' ≠ None
          ∧ (if rule "reviews" (fields r)
             then is_valid r' = Some true ∧ error_message r' = None
             else match is_valid r with
                  | Some true =>
                      is_valid r' = Some true
                      ∧ error_message r' = error_message r
                  | _ =>
                      is_valid r' = Some false
                      ∧ error_message r' = Some (invalid_message "reviews")
                  end).
Proof.
  intros s rule.
  apply (m4_transform_decides_every_row (λ _ f, f) rule "reviews" "run" s
           [mkStaged 9%Z (Some 0%Z) (Some true) None;
            mkStaged 3%Z (Some 0%Z) None None]).
  - reflexivity.
  - reflexivity.
Defined.

(** X14. The audit record of the M4 transformation adds up. For a table
    outside customers, reviews and orders the call returns [True] and
    changes nothing, audit log included. For a validated table it appends
    exactly one TRANSFORM record, whose processed count is the sum of its
    valid and invalid counts, both non-negative; the call returns [True]
    exactly when the record says SUCCESS, and the counts are then the size
    of the staging table and the number of its rows flagged valid after the
    transformation; on failure all three counts are 0. Production tables,
    files and the other staging tables are never touched. *)
Theorem m4_transform_audit_adds_up {Raw Fields : Type}
    (normalise : string → Fields → Fields) (rule : string → Fields → bool)
    (t run_id : string) (s : Store Raw Fields) :
  let ok := (transform_staging_data normalise rule t run_id s).1 in
  let s' := (transform_staging_data normalise rule t run_id s).2 in
  production s' = production s ∧ files s' = files s
  ∧ (∀ t', t' ≠ stg t → staging s' !! t' = staging s !! t')
  ∧ (validated t = false → ok = true ∧ s' = s)
  ∧ (validated t = true →
     ∃ a, audit s' = audit s ++ [a]
       ∧ au_run_id a = run_id ∧ au_stage a = "TRANSFORM" ∧ au_table a = t
       ∧ au_processed a = (au_valid a + au_invalid a)%Z
       ∧ (0 ≤ au_valid a)%Z ∧ (0 ≤ au_invalid a)%Z
       ∧ (ok = true ↔ au_status a = "SUCCESS")
       ∧ (ok = false ↔ au_status a = "FAILED")
       ∧ (ok = false →
          au_processed a = 0%Z ∧ staging s !! stg t = None
          ∧ staging s' = staging s)
       ∧ (ok = true →
          ∃ rows', staging s' !! stg t = Some rows'
            ∧ au_processed a = Z.of_nat (length rows')
            ∧ au_valid a = Z.of_nat (length (valid_rows rows')))).
Proof.
  intros ok s'. subst ok s'.
  destruct (validated t) eqn:Hv.
  - destruct (staging s !! stg t) as [rows|] eqn:Hrows.
    + rewrite (transform_staging_data_validated normalise rule t run_id s
                 rows) by done.
      cbn zeta. cbn [fst snd log_audit set_staging production files staging
                     audit].
      split_and!; try done.
      * intros t' Hne. by rewrite lookup_insert_ne.
      * intros _. eexists. split; [done|]. cbn.
        assert (length (valid_rows (three_updates normalise rule t
                  (invalid_message t) rows)) ≤ length rows)%nat as Hle.
        { unfold valid_rows. etrans; [apply length_filter|].
          unfold three_updates. by rewrite !length_fmap. }
        split_and!; try done; try lia.
        intros _. eexists. rewrite lookup_insert_eq. split; [done|].
        unfold three_updates. by rewrite !length_fmap.
    + unfold transform_staging_data.
      change (bool_decide (t ∈ ["customers"; "reviews"; "orders"]))
        with (validated t).
      rewrite Hv, Hrows. cbn. split_and!; try done.
      intros _. eexists. split; [done|]. cbn. split_and!; done.
  - unfold transform_staging_data.
    change (bool_decide (t ∈ ["customers"; "reviews"; "orders"]))
      with (validated t).
    rewrite Hv. cbn. split_and!; done.
Qed.

(** X15. One fresh batch through the three M4 stages of a validated table
    (customers, reviews or orders): when the CSV file, the staging table
    and the production table exist, the server accepts
    [LOAD DATA LOCAL INFILE] and the production table admits the new rows,
    all three stages return [True]; the production table ends as its
    previous rows followed by exactly the converted rows of the file that
    satisfy the table's rule after normalisation, in file order; every line
    of the file stays in staging, flagged valid exactly when it satisfies
    the rule. When no row satisfies the rule the production table is
    unchanged. *)
Theorem m4_fresh_batch_promotes_rule {Raw Fields : Type}
    (infile_row : string → Raw → Fields)
    (convert : string → Fields → Fields)
    (admits : string → list Fields → list Fields → bool)
    (normalise : string → Fields → Fields) (rule : string → Fields → bool)
    (t csv_file run_id : string) (ts : Z) (s : Store Raw Fields)
    (rows : list Raw) (prod : list Fields) :
  validated t = true →
  files s !! csv_file = Some rows →
  is_Some (staging s !! stg t) →
  production s !! t = Some prod →
  (filter (λ f, rule t f = true) (normalise t <$> (infile_row t <$> rows))
     ≠ [] →
   admits t prod
     (convert t <$> filter (λ f, rule t f = true)
                      (normalise t <$> (infile_row t <$> rows))) = true) →
  let r1 := m4_load_to_staging infile_row true t csv_file run_id ts s in
  let r2 := transform_staging_data normalise rule t run_id r1.2 in
  let r3 := m4_load_to_production convert admits t run_id r2.2 in
  r1.1 = true ∧ r2.1 = true ∧ r3.1 = true
  ∧ production r3.2 !! t
    = Some (prod ++ (convert t
                       <$> filter (λ f, rule t f = true)
                             (normalise t <$> (infile_row t <$> rows))))
  ∧ ∃ staged,
      staging r3.2 !! stg t = Some staged
      ∧ fields <$> staged = normalise t <$> (infile_row t <$> rows)
      ∧ ∀ r, r ∈ staged →
          if rule t (fields r) then is_valid r = Some true
          else is_valid r = Some false.
Proof.
  intros Hv Hfile [prev Hprev] Hprod Hadm r1 r2 r3.
  set (loaded := (λ row, staged_row true (validated t) ts
                           (infile_row t row)) <$> rows).
  assert (r1 = (true,
                log_audit run_id "LOAD_STAGING" t (Z.of_nat (length rows))
                  (Z.of_nat (length loaded)) 0 "SUCCESS"
                  (set_staging (stg t) loaded s))) as Hr1.
  { subst r1. unfold m4_load_to_staging. by rewrite Hfile, Hprev. }
  assert (staging r1.2 !! stg t = Some loaded) as Hloaded.
  { rewrite Hr1. cbn. apply lookup_insert_eq. }
  set (rows' := three_updates normalise rule t (invalid_message t) loaded).
  assert (r2 = (true,
                log_audit run_id "TRANSFORM" t (Z.of_nat (length loaded))
                  (Z.of_nat (length (valid_rows rows')))
                  (Z.of_nat (length loaded)
                   - Z.of_nat (length (valid_rows rows')))
                  "SUCCESS" (set_staging (stg t) rows' r1.2))) as Hr2.
  { subst r2.
    by rewrite (transform_staging_data_validated normalise rule t run_id
                  r1.2 loaded). }
  assert (staging r2.2 !! stg t = Some rows') as Hrows'.
  { rewrite Hr2. cbn. apply lookup_insert_eq. }
  assert (production r2.2 !! t = Some prod) as Hprod2.
  { rewrite Hr2, Hr1. done. }
  assert (∀ r, r ∈ loaded → is_valid r ≠ Some true) as Hfresh.
  { intros r (row & -> & _)%list_elem_of_fmap. cbn. by rewrite Hv. }
  assert (fields <$> loaded = infile_row t <$> rows) as Hfields.
  { subst loaded. by rewrite <- list_fmap_compose. }
  pose proof (valid_rows_fresh normalise rule t (invalid_message t) loaded
                Hfresh) as Hvalid.
  fold rows' in Hvalid. rewrite Hfields in Hvalid.
  assert (r3.1 = true
          ∧ production r3.2 !! t
            = Some (prod ++ (convert t <$> (fields <$> valid_rows rows')))
          ∧ staging r3.2 = staging r2.2) as (Hok3 & Hprod3 & Hstg3).
  { subst r3. unfold m4_load_to_production.
    rewrite Hrows', Hv, Hprod2. cbn [orb].
    case_decide as Hlen.
    - apply nil_length_inv in Hlen. rewrite Hlen. cbn.
      by rewrite app_nil_r.
    - assert ((λ r, convert t (fields r)) <$> valid_rows rows'
              = convert t <$> (fields <$> valid_rows rows')) as Hnew
        by by rewrite <- list_fmap_compose.
      rewrite Hnew, Hvalid, Hadm.
      + cbn. split_and!; [done| |done]. apply lookup_insert_eq.
      + intros Hnil. apply Hlen.
        rewrite <- (length_fmap fields), Hvalid, Hnil. done. }
  split_and!; [by rewrite Hr1|by rewrite Hr2|done|by rewrite Hprod3, Hvalid|].
  exists rows'. rewrite Hstg3. split_and!; [done|..].
  - subst rows'. unfold three_updates.
    rewrite <- Hfields, <- !list_fmap_compose. apply list_fmap_ext.
    intros i r _. cbn.
    by destruct (three_updates_row normalise rule t (invalid_message t) r)
      as (? & _).
  - intros r' Hr'. subst rows'. unfold three_updates in Hr'.
    rewrite <- !list_fmap_compose in Hr'.
    apply list_elem_of_fmap in Hr' as (r & -> & Hr). cbn.
    destruct (three_updates_row normalise rule t (invalid_message t) r)
      as (Hf & _ & Hdec). cbn zeta in Hf, Hdec. rewrite Hf.
    destruct (rule t (normalise t (fields r))); [by destruct Hdec|].
    specialize (Hfresh r Hr).
    destruct (is_valid r) as [[]|]; [done|by destruct Hdec..].
Qed.

Lemma m4_fresh_batch_promotes_rule_reviews :
  let s : Store Z Z :=
    mkStore {["reviews.csv" := [4%Z; 9%Z; 1%Z]]} {["stg_reviews" := []]}
      {["reviews" := [5%Z]]} [] in
  let rule := λ (_ : string) (f : Z), (f <=? 5)%Z in
  let r1 := m4_load_to_staging (λ _ row, row) true "reviews" "reviews.csv"
              "run" 0%Z s in
  let r2 := transform_staging_data (λ _ f, f) rule "reviews" "run" r1.2 in
  let r3 := m4_load_to_production (λ _ f, f) (λ _ _ _, true) "reviews" "run"
              r2.2 in
  r1.1 = true ∧ r2.1 = true ∧ r3.1 = true
  ∧ production r3.2 !! "reviews" = Some ([5%Z] ++ [4%Z; 1%Z])
  ∧ ∃ staged,
      staging r3.2 !! stg "reviews" = Some staged
      ∧ fields <$> staged = [4%Z; 9%Z; 1%Z]
      ∧ ∀ r, r ∈ staged →
          if rule "reviews" (fields r) then is_valid r = Some true
          else is_valid r = Some false.
Proof.
  intros s rule.
  apply (m4_fresh_batch_promotes_rule (λ _ row, row) (λ _ f, f)
           (λ _ _ _, true) (λ _ f, f) rule "reviews" "reviews.csv" "run" 0%Z
           s [4%Z; 9%Z; 1%Z] [5%Z]).
  - reflexivity.
  - reflexivity.
  - eexists. reflexivity.
  - reflexivity.
  - intros _. reflexivity.
Defined.

(** X16. The M4 promotion is all or nothing and leaves a trace. Staging
    tables and files are never changed. When it returns [False] the
    production tables are as before and one LOAD_PROD record with status
    FAILED and zero counts is appended to the audit log. When it returns
    [True], either nothing at all changed, audit log included (there was
    nothing to promote, or the call left the production tables alone), or
    one LOAD_PROD record with status SUCCESS is appended whose processed
    and valid counts are the positive number of promoted rows. Every
    production table keeps its previous rows as a prefix, only the promoted
    table grows, and on a validated table it grows by at most the number of
    staging rows flagged valid. *)
Theorem m4_promotion_all_or_nothing {Raw Fields : Type}
    (convert : string → Fields → Fields)
    (admits : string → list Fields → list Fields → bool)
    (t run_id : string) (s : Store Raw Fields) :
  let ok := (m4_load_to_production convert admits t run_id s).1 in
  let s' := (m4_load_to_production convert admits t run_id s).2 in
  staging s' = staging s ∧ files s' = files s
  ∧ (ok = false →
     production s' = production s
     ∧ audit s' = audit s ++ [mkAudit run_id "LOAD_PROD" t 0 0 0 "FAILED"])
  ∧ (ok = true →
     s' = s
     ∨ ∃ n, (0 < n)%Z
         ∧ audit s'
           = audit s ++ [mkAudit run_id "LOAD_PROD" t n n 0 "SUCCESS"])
  ∧ (∀ t' prod, production s !! t' = Some prod →
       ∃ more, production s' !! t' = Some (prod ++ more)
         ∧ (t' ≠ t → more = [])
         ∧ (validated t = true → ∀ rows, staging s !! stg t = Some rows →
            (length more ≤ length (valid_rows rows))%nat)).
Proof.
  intros ok s'. subst ok s'. unfold m4_load_to_production.
  assert (∀ t' prod, production s !! t' = Some prod →
            ∃ more, production s !! t' = Some (prod ++ more)
              ∧ (t' ≠ t → more = [])
              ∧ (validated t = true → ∀ rows, staging s !! stg t = Some rows →
                 (length more ≤ length (valid_rows rows))%nat)) as Hsame.
  { intros t' prod Hp. exists []. rewrite app_nil_r.
    split_and!; [done..|]. intros _ rows _. cbn. lia. }
  destruct (staging s !! stg t) as [rows|] eqn:Hrows; cbn [fst snd].
  2: { cbn. split_and!; try done. }
  case_decide as Hlen; cbn [fst snd].
  { split_and!; try done. by left. }
  destruct (production s !! t) as [prod|] eqn:Hprod; cbn [fst snd].
  2: { cbn. split_and!; try done. }
  destruct (validated t
            || bool_decide (t ∈ ["categories"; "suppliers"; "products";
                                 "order_items"])) eqn:Hlisted.
  2: { cbn. split_and!; try done. intros _. right.
       eexists. split; [|done]. lia. }
  destruct (admits t prod _) eqn:Hadm; cbn [fst snd].
  2: { cbn. split_and!; try done. }
  cbn. split_and!; try done.
  - intros _. right. eexists. split; [|done]. lia.
  - intros t' prod' Hp. destruct (decide (t' = t)) as [->|Hne].
    + rewrite lookup_insert_eq. simplify_eq. eexists.
      split_and!; [done..|]. intros Hv rows' [= <-].
      rewrite Hv, length_fmap. done.
    + rewrite lookup_insert_ne by done. exists []. rewrite app_nil_r.
      split_and!; [done..|]. intros _ rows' _. cbn. lia.
Qed.

(** X17. The outcomes of the M4 staging load. It never touches production
    tables, files or other staging tables. When it returns [True] the
    staging table holds one row per line of the file, in file order, each
    stamped with the load time, flagged [FALSE] where the table has the
    flag and without message, and one LOAD_STAGING record with status
    SUCCESS counts the lines as processed and as loaded. When it returns
    [False], either the file is missing and nothing changed, audit log
    included, or one LOAD_STAGING record with status FAILED and zero counts
    is appended and the staging table is as before or, when the load
    statement was refused after the [TRUNCATE], empty. *)
Theorem m4_stage_outcomes {Raw Fields : Type}
    (infile_row : string → Raw → Fields) (local_infile : bool)
    (t csv_file run_id : string) (ts : Z) (s : Store Raw Fields) :
  let ok :=
    (m4_load_to_staging infile_row local_infile t csv_file run_id ts s).1 in
  let s' :=
    (m4_load_to_staging infile_row local_infile t csv_file run_id ts s).2 in
  production s' = production s ∧ files s' = files s
  ∧ (∀ t', t' ≠ stg t → staging s' !! t' = staging s !! t')
  ∧ (ok = true →
     ∃ rows staged,
       files s !! csv_file = Some rows
       ∧ staging s' !! stg t = Some staged
       ∧ fields <$> staged = infile_row t <$> rows
       ∧ (∀ r, r ∈ staged →
            load_timestamp r = Some ts
            ∧ is_valid r = (if validated t then Some false else None)
            ∧ error_message r = None)
       ∧ audit s'
         = audit s ++ [mkAudit run_id "LOAD_STAGING" t
                         (Z.of_nat (length rows)) (Z.of_nat (length rows)) 0
                         "SUCCESS"])
  ∧ (ok = false →
     (files s !! csv_file = None ∧ s' = s)
     ∨ (is_Some (files s !! csv_file)
        ∧ audit s'
          = audit s ++ [mkAudit run_id "LOAD_STAGING" t 0 0 0 "FAILED"]
        ∧ (staging s' = staging s
           ∨ (local_infile = false
              ∧ staging s' = <[stg t := []]> (staging s))))).
Proof.
  intros ok s'. subst ok s'. unfold m4_load_to_staging.
  destruct (files s !! csv_file) as [rows|] eqn:Hfile; cbn [fst snd].
  2: { split_and!; try done. intros _. by left. }
  destruct (staging s !! stg t) as [prev|] eqn:Hprev; cbn [fst snd].
  2: { cbn. split_and!; try done. intros _. right. split_and!; eauto. }
  destruct local_infile; cbn [fst snd]; cbn.
  - split_and!; try done.
    + intros t' Hne. by rewrite lookup_insert_ne.
    + intros _. eexists _, _. rewrite lookup_insert_eq.
      split_and!; [done|done|..].
      * by rewrite <- list_fmap_compose.
      * by intros r (row & -> & _)%list_elem_of_fmap.
      * by rewrite length_fmap.
  - split_and!; try done.
    + intros t' Hne. by rewrite lookup_insert_ne.
    + intros _. right. split_and!; eauto.
Qed.
